(** * The locking-center Go client ([mutex/mutex.go]): wire codec and retry engine

    A shallow embedding of [preparePackage], [query], [result] and of the
    blocking operations [Lock], [Unlock], [Wait], [ResetByKey] and
    [ResetBySource], together with the properties of the wire format and of
    the retry loop.

    Go strings and byte slices are [list byte]; [len] is the number of bytes.
    Integers are [Z] with the wrap-around of Go's conversions written out. *)

From Stdlib Require Import ZArith List Lia Bool String.
From Stdlib.Strings Require Import Byte.
Import ListNotations.
Local Open Scope Z_scope.

(** ** Bytes and fixed-width integers *)

Definition gostring := list byte.

Definition len (s : gostring) : Z := Z.of_nat (List.length s).

(** The unsigned value of a byte, [0 <= _ < 256]. *)
Definition byte_to_Z (b : byte) : Z := Z.of_N (Byte.to_N b).

(** The byte holding the low eight bits of [z]. *)
Definition byte_of_Z (z : Z) : byte :=
  match Byte.of_N (Z.to_N (z mod 256)) with
  | Some b => b
  | None => x00
  end.

(** Go's conversion [int8(n)]: the low eight bits of [n], read in two's
    complement. *)
Definition int8 (z : Z) : Z := (z + 128) mod 256 - 128.

(** A byte of the wire read as a signed 8-bit integer. *)
Definition int8_of_byte (b : byte) : Z := int8 (byte_to_Z b).

(** ** Errors *)

Inductive error : Type :=
| Errorf (msg : string)   (* fmt.Errorf(msg) *)
| NetError (code : nat).  (* an error value of package net, opaque here *)

(** A Go result pair [(value, err)] with [err] checked at once. *)
Inductive fallible (A : Type) : Type :=
| Ok (a : A)
| Err (e : error).
Arguments Ok {A} a.
Arguments Err {A} e.

Definition rbind {A B} (r : fallible A) (k : A -> fallible B) : fallible B :=
  match r with
  | Ok a => k a
  | Err e => Err e
  end.

Declare Scope fallible_scope.
Delimit Scope fallible_scope with fallible.
Notation "x <- r ;; k" := (rbind r (fun x => k))
  (at level 61, r at next level, right associativity) : fallible_scope.

Definition is_ok {A} (r : fallible A) : bool :=
  match r with Ok _ => true | Err _ => false end.

(** ** The request encoder *)

Definition mutexAction := byte.

Definition maLock : mutexAction := x01.
Definition maUnlock : mutexAction := x02.
Definition maResetByKey : mutexAction := x03.
Definition maResetBySource : mutexAction := x04.

(** [bytes.Buffer]: the bytes written so far. *)
Definition Buffer := list byte.

(** The values [preparePackage] hands to [binary.Write]. *)
Inductive data : Type :=
| DUint8 (b : byte)        (* mutexAction, of kind uint8 *)
| DInt8 (v : Z)            (* int8 *)
| DBytes (bs : list byte). (* []byte *)

(** [binary.Write(buffer, binary.LittleEndian, d)]: every value written here
    has a fixed size, and a write to a [bytes.Buffer] does not fail. *)
Definition binary_Write (buffer : Buffer) (d : data) : fallible Buffer :=
  match d with
  | DUint8 b => Ok (buffer ++ [b])
  | DInt8 v => Ok (buffer ++ [byte_of_Z v])
  | DBytes bs => Ok (buffer ++ bs)
  end.

Definition invalid_key_msg : string :=
  "key can not be empty or more than 128 characters".

Definition needs_key (action : mutexAction) : bool :=
  Byte.eqb action maLock || Byte.eqb action maUnlock
  || Byte.eqb action maResetByKey.

Definition needs_source (action : mutexAction) : bool :=
  Byte.eqb action maLock || Byte.eqb action maResetBySource.

Definition preparePackage (action : mutexAction) (key : gostring)
    (sourceAddr : option gostring) : fallible (list byte) :=
  if (negb (Byte.eqb action maResetBySource) && (len key =? 0))
     || (len key >? 128)
  then Err (Errorf invalid_key_msg)
  else
    (let buffer : Buffer := [] in
     buffer <- binary_Write buffer (DUint8 action) ;;
     buffer <-
       (if needs_key action then
          let keySize := int8 (len key) in
          buffer <- binary_Write buffer (DInt8 keySize) ;;
          binary_Write buffer (DBytes key)
        else Ok buffer) ;;
     buffer <-
       (if needs_source action then
          let sourceAddrSize :=
            match sourceAddr with
            | Some s => int8 (len s)
            | None => int8 0
            end in
          buffer <- binary_Write buffer (DInt8 sourceAddrSize) ;;
          match sourceAddr with
          | Some s => binary_Write buffer (DBytes s)
          | None => Ok buffer
          end
        else Ok buffer) ;;
     Ok buffer)%fallible.

(** ** The network and the process, as the client sees them *)

(** What the peer does on one connection: [on_write payload] is the error of
    [conn.Write(payload)], if any; [on_read sent] is the first response byte
    once the bytes [sent] have been written, or [None] when the stream is
    closed or fails before a byte arrives. *)
Record TCPConn : Type := {
  on_write : list byte -> option error;
  on_read : list byte -> option byte
}.

Inductive dialOutcome : Type :=
| DialFails (e : error)
| DialConnects (c : TCPConn).

(** What the process does, in order. *)
Inductive event : Type :=
| EvDial (ok : bool)
| EvWrite (payload : list byte) (ok : bool)
| EvRead (r : option byte)
| EvClose
| EvPrintf (format : string) (e : error)
| EvSleep (d : Z).

Record World : Type := {
  net : nat -> dialOutcome;  (* the outcome of the n-th net.DialTCP *)
  dialed : nat;              (* calls of net.DialTCP so far *)
  sent : list byte;          (* bytes written on the connection in use *)
  trace : list event
}.

Definition M (A : Type) : Type := World -> A * World.

Definition ret {A} (a : A) : M A := fun w => (a, w).

Definition bind {A B} (m : M A) (k : A -> M B) : M B :=
  fun w => let (a, w') := m w in k a w'.

Declare Scope io_scope.
Delimit Scope io_scope with io.
Notation "x <- m ;; k" := (bind m (fun x => k))
  (at level 61, m at next level, right associativity) : io_scope.
Notation "m ;; k" := (bind m (fun _ => k))
  (at level 61, right associativity) : io_scope.

Definition emit (ev : event) : M unit :=
  fun w => (tt, {| net := net w; dialed := dialed w; sent := sent w;
                   trace := trace w ++ [ev] |}).

Definition net_DialTCP : M (fallible TCPConn) :=
  fun w =>
    let w' ok := {| net := net w; dialed := S (dialed w); sent := [];
                    trace := trace w ++ [EvDial ok] |} in
    match net w (dialed w) with
    | DialFails e => (Err e, w' false)
    | DialConnects c => (Ok c, w' true)
    end.

(** [conn.Write(payload)], its error ([None] is Go's [nil]). *)
Definition conn_Write (conn : TCPConn) (payload : list byte)
  : M (option error) :=
  fun w =>
    match on_write conn payload with
    | Some e =>
        (Some e, {| net := net w; dialed := dialed w; sent := sent w;
                    trace := trace w ++ [EvWrite payload false] |})
    | None =>
        (None, {| net := net w; dialed := dialed w;
                  sent := sent w ++ payload;
                  trace := trace w ++ [EvWrite payload true] |})
    end.

(** [io.ReadAtLeast(conn, r, 1)] into a buffer [r] of one byte: the byte, or
    [None] for an error. *)
Definition io_ReadAtLeast1 (conn : TCPConn) : M (option byte) :=
  fun w => let r := on_read conn (sent w) in
           (r, {| net := net w; dialed := dialed w; sent := sent w;
                  trace := trace w ++ [EvRead r] |}).

Definition conn_Close (conn : TCPConn) : M unit := emit EvClose.
Definition fmt_Printf (format : string) (e : error) : M unit :=
  emit (EvPrintf format e).
Definition time_Sleep (d : Z) : M unit := emit (EvSleep d).

(** [time.Duration] counts nanoseconds. *)
Definition Millisecond : Z := 1000000.
Definition queueRetryDuration : Z := Millisecond * 500.

(** ** The engine *)

Definition plus_sign : byte := "+"%byte.

Definition result (conn : TCPConn) : M bool :=
  (r <- io_ReadAtLeast1 conn ;;
   match r with
   | None => ret false
   | Some b => ret (Byte.eqb b plus_sign)
   end)%io.

Definition remote_error_msg : string := "remote server execution error".

Definition query (conn : TCPConn) (action : mutexAction) (key : gostring)
    (sourceAddr : option gostring) : M (option error) :=
  match preparePackage action key sourceAddr with
  | Err err => ret (Some err)
  | Ok payload =>
      (werr <- conn_Write conn payload ;;
       match werr with
       | Some err => ret (Some err)
       | None =>
           ok <- result conn ;;
           if negb ok then ret (Some (Errorf remote_error_msg))
           else ret None
       end)%io
  end.

Definition newline : string := String (Ascii.ascii_of_nat 10) EmptyString.

Definition connection_failure_fmt : string :=
  ("ERROR: connection failure: %s" ++ newline)%string.
Definition locking_error_fmt : string :=
  ("ERROR: locking error: %s" ++ newline)%string.
Definition unlocking_error_fmt : string :=
  ("ERROR: unlocking error: %s" ++ newline)%string.
Definition reseting_error_fmt : string :=
  ("ERROR: reseting error: %s" ++ newline)%string.

(** The shape shared by the closure [query] of the four operations: dial,
    defer the close, run the request, report an error. The deferred
    [conn.Close()] runs when the closure returns, after the report. *)
Definition attempt (action : mutexAction) (key : gostring)
    (sourceAddr : option gostring) (errfmt : string) : M bool :=
  (d <- net_DialTCP ;;
   match d with
   | Err err => fmt_Printf connection_failure_fmt err ;; ret false
   | Ok conn =>
       qerr <- query conn action key sourceAddr ;;
       match qerr with
       | Some err => fmt_Printf errfmt err ;; conn_Close conn ;; ret false
       | None => conn_Close conn ;; ret true
       end
   end)%io.

(** Whether a blocking call has returned, or is still in its loop when the
    fuel of the model is used up. *)
Inductive termination : Type := Returned | Looping.

(** [for !query() { time.Sleep(queueRetryDuration) }], at most [fuel] calls
    of [query]. *)
Fixpoint retry (fuel : nat) (query : M bool) : M termination :=
  match fuel with
  | O => ret Looping
  | S fuel' =>
      (ok <- query ;;
       if negb ok then time_Sleep queueRetryDuration ;; retry fuel' query
       else ret Returned)%io
  end.

Definition Lock (fuel : nat) (key : gostring) (sourceAddr : option gostring)
  : M termination :=
  let query : M bool :=
    (d <- net_DialTCP ;;
     match d with
     | Err err => fmt_Printf connection_failure_fmt err ;; ret false
     | Ok conn =>
         qerr <- query conn maLock key sourceAddr ;;
         match qerr with
         | Some err =>
             fmt_Printf locking_error_fmt err ;; conn_Close conn ;; ret false
         | None => conn_Close conn ;; ret true
         end
     end)%io in
  retry fuel query.

Definition Unlock (fuel : nat) (key : gostring) : M termination :=
  let query : M bool :=
    (d <- net_DialTCP ;;
     match d with
     | Err err => fmt_Printf connection_failure_fmt err ;; ret false
     | Ok conn =>
         qerr <- query conn maUnlock key None ;;
         match qerr with
         | Some err =>
             fmt_Printf unlocking_error_fmt err ;; conn_Close conn ;; ret false
         | None => conn_Close conn ;; ret true
         end
     end)%io in
  retry fuel query.

(** [l.Lock(key, nil)], then the deferred [l.Unlock(key)] when [Wait]
    returns; a [Lock] that is still looping never reaches it. *)
Definition Wait (fuel : nat) (key : gostring) : M termination :=
  (r <- Lock fuel key None ;;
   match r with
   | Returned => Unlock fuel key
   | Looping => ret Looping
   end)%io.

Definition ResetByKey (fuel : nat) (key : gostring) : M termination :=
  let query : M bool :=
    (d <- net_DialTCP ;;
     match d with
     | Err err => fmt_Printf connection_failure_fmt err ;; ret false
     | Ok conn =>
         qerr <- query conn maResetByKey key None ;;
         match qerr with
         | Some err =>
             fmt_Printf reseting_error_fmt err ;; conn_Close conn ;; ret false
         | None => conn_Close conn ;; ret true
         end
     end)%io in
  retry fuel query.

Definition ResetBySource (fuel : nat) (sourceAddr : option gostring)
  : M termination :=
  let query : M bool :=
    (d <- net_DialTCP ;;
     match d with
     | Err err => fmt_Printf connection_failure_fmt err ;; ret false
     | Ok conn =>
         qerr <- query conn maResetBySource [] sourceAddr ;;
         match qerr with
         | Some err =>
             fmt_Printf reseting_error_fmt err ;; conn_Close conn ;; ret false
         | None => conn_Close conn ;; ret true
         end
     end)%io in
  retry fuel query.

(** ** Observations on a trace *)

(** The dials and the sleeps, in order. *)
Inductive tick : Type := TDial | TSleep (d : Z).

Fixpoint ticks (tr : list event) : list tick :=
  match tr with
  | [] => []
  | EvDial _ :: tr' => TDial :: ticks tr'
  | EvSleep d :: tr' => TSleep d :: ticks tr'
  | _ :: tr' => ticks tr'
  end.

(** The payloads written without error, in order. *)
Fixpoint requests (tr : list event) : list (list byte) :=
  match tr with
  | [] => []
  | EvWrite p true :: tr' => p :: requests tr'
  | _ :: tr' => requests tr'
  end.

(** Every payload handed to [conn.Write], whether or not it failed. *)
Fixpoint writes (tr : list event) : list (list byte) :=
  match tr with
  | [] => []
  | EvWrite p _ :: tr' => p :: writes tr'
  | _ :: tr' => writes tr'
  end.

(** The number of positive acknowledgments read. *)
Fixpoint acks (tr : list event) : nat :=
  match tr with
  | [] => O
  | EvRead (Some b) :: tr' =>
      if Byte.eqb b plus_sign then S (acks tr') else acks tr'
  | _ :: tr' => acks tr'
  end.

(** The number of reports printed. *)
Fixpoint reports (tr : list event) : nat :=
  match tr with
  | [] => O
  | EvPrintf _ _ :: tr' => S (reports tr')
  | _ :: tr' => reports tr'
  end.

(** A peer that accepts every connection and acknowledges every request. *)
Definition ack_conn : TCPConn :=
  {| on_write := fun _ => None; on_read := fun _ => Some plus_sign |}.

Definition world_of (n : nat -> dialOutcome) : World :=
  {| net := n; dialed := O; sent := []; trace := [] |}.

Definition ack_world : World := world_of (fun _ => DialConnects ack_conn).

Definition key_of (s : string) : gostring := list_byte_of_string s.

(** ** The wire format of the specification *)

(** The closed set of operation codes of the specification's data model. *)
Inductive Action : Type := ALock | AUnlock | AResetByKey | AResetBySource.

(** The action codes of the table of external interfaces. *)
Definition action_code (a : Action) : byte :=
  match a with
  | ALock => x01
  | AUnlock => x02
  | AResetByKey => x03
  | AResetBySource => x04
  end.

Definition action_of_code (b : byte) : option Action :=
  match b with
  | x01 => Some ALock
  | x02 => Some AUnlock
  | x03 => Some AResetByKey
  | x04 => Some AResetBySource
  | _ => None
  end.

Definition requires_key (a : Action) : bool :=
  match a with
  | ALock | AUnlock | AResetByKey => true
  | AResetBySource => false
  end.

Definition carries_source (a : Action) : bool :=
  match a with
  | ALock | AResetBySource => true
  | AUnlock | AResetByKey => false
  end.

(** A length field: one byte holding the length. *)
Definition length_byte (s : gostring) : byte := byte_of_Z (len s).

(** The frame as the specification words it: one action-code byte; then, only
    for the actions needing a key, one key-length byte and the key bytes;
    then, only for Lock and ResetBySource, one source-length byte (0 if the
    source is absent) and the source bytes if present. *)
Definition frame_layout (a : Action) (key : gostring)
    (sourceAddr : option gostring) : list byte :=
  [action_code a]
  ++ (if requires_key a then length_byte key :: key else [])
  ++ (if carries_source a then
        match sourceAddr with
        | None => [x00]
        | Some s => length_byte s :: s
        end
      else []).

(** One length-prefixed field of a frame: the length byte gives the number
    of bytes that follow, 0 to 255; the field and the bytes after it. A
    length beyond the end of the frame is not a field. *)
Definition read_field (bs : list byte) : option (gostring * list byte) :=
  match bs with
  | [] => None
  | n :: rest =>
      let k := byte_to_Z n in
      if len rest <? k then None
      else Some (firstn (Z.to_nat k) rest, skipn (Z.to_nat k) rest)
  end.

(** Modelled from the spec: the decoder of a request frame, which belongs to
    the server and is not in this repository. It reads the frame by the
    layout table of the external interfaces: the action code, then for Lock,
    Unlock and ResetByKey the key-length byte and the key bytes, then for
    Lock and ResetBySource the source-length byte and the source bytes if
    the length is above 0; a source length of 0 means an absent source. A
    length byte counts the bytes that follow it, so that the byte 0x80 of a
    key of 128 bytes, the longest key of the data model, stands for 128
    bytes. The frame has to be used up. *)
Definition decode (frame : list byte)
  : option (Action * gostring * option gostring) :=
  match frame with
  | [] => None
  | c :: rest =>
      match action_of_code c with
      | None => None
      | Some a =>
          match (if requires_key a then read_field rest
                 else Some ([], rest)) with
          | None => None
          | Some (key, rest1) =>
              if carries_source a then
                match read_field rest1 with
                | Some (src, []) =>
                    Some (a, key, if len src =? 0 then None else Some src)
                | _ => None
                end
              else
                match rest1 with
                | [] => Some (a, key, None)
                | _ :: _ => None
                end
          end
      end
  end.

(** The action byte and the key field, common to the frames of one action
    and key. *)
Definition header (action : mutexAction) (key : gostring) : list byte :=
  action :: (if needs_key action then byte_of_Z (len key) :: key else []).

(** The guard of [preparePackage], as a proposition on the key. *)
Definition key_accepted (action : mutexAction) (key : gostring) : Prop :=
  (action <> maResetBySource -> len key <> 0) /\ len key <= 128.

(** ** One attempt and the loop, in closed form *)

(** Whether one attempt ends with the acknowledgment, given the outcome of
    its dial and the result of the encoder. *)
Definition attempt_ok (o : dialOutcome) (pp : fallible (list byte)) : bool :=
  match o, pp with
  | DialConnects c, Ok payload =>
      match on_write c payload, on_read c payload with
      | None, Some b => Byte.eqb b plus_sign
      | _, _ => false
      end
  | _, _ => false
  end.

(** The events of one attempt. *)
Definition attempt_trace (o : dialOutcome) (pp : fallible (list byte))
    (errfmt : string) : list event :=
  match o with
  | DialFails e => [EvDial false; EvPrintf connection_failure_fmt e]
  | DialConnects c =>
      EvDial true ::
      match pp with
      | Err e => [EvPrintf errfmt e; EvClose]
      | Ok payload =>
          match on_write c payload with
          | Some e => [EvWrite payload false; EvPrintf errfmt e; EvClose]
          | None =>
              EvWrite payload true :: EvRead (on_read c payload) ::
              (if attempt_ok o pp then [EvClose]
               else [EvPrintf errfmt (Errorf remote_error_msg); EvClose])
          end
      end
  end.

(** The transient failures of an attempt that sends [frame]: a connect
    error, a write error, a read failure or a negative acknowledgment. *)
Definition transient_failure (o : dialOutcome) (frame : list byte) : Prop :=
  match o with
  | DialFails _ => True
  | DialConnects c =>
      (exists e, on_write c frame = Some e)
      \/ (on_write c frame = None /\ on_read c frame = None)
      \/ (on_write c frame = None /\
          exists b, on_read c frame = Some b /\ b <> plus_sign)
  end.

(** The attempt that sends [frame] receives the acknowledgment. *)
Definition acknowledged (o : dialOutcome) (frame : list byte) : Prop :=
  match o with
  | DialFails _ => False
  | DialConnects c =>
      on_write c frame = None /\ on_read c frame = Some plus_sign
  end.

(** [N] attempts, each followed by the sleep of the retry interval. *)
Definition retry_ticks (N : nat) : list tick :=
  List.concat (repeat [TDial; TSleep queueRetryDuration] N).

(** A call that has used up [fuel] attempts from the world [w] without
    returning and without handing a byte to the connection: every attempt
    was reported and followed by the sleep. *)
Definition keeps_retrying (fuel : nat) (w : World)
    (r : termination * World) : Prop :=
  fst r = Looping /\
  dialed (snd r) = (dialed w + fuel)%nat /\
  exists t, trace (snd r) = trace w ++ t /\
            ticks t = retry_ticks fuel /\
            writes t = [] /\
            reports t = fuel.

(** A peer that fails twice, by a refused dial and by a closed stream, and
    acknowledges from the third connection on. *)
Definition closing_conn : TCPConn :=
  {| on_write := fun _ => None; on_read := fun _ => None |}.

Definition flaky_net (n : nat) : dialOutcome :=
  match n with
  | O => DialFails (NetError 111)
  | S O => DialConnects closing_conn
  | _ => DialConnects ack_conn
  end.

Definition key_of_length (n : nat) : gostring := repeat "a"%byte n.

(** ** The four operations as one family *)

(** A call of one of the four operations that send a request. *)
Inductive call : Type :=
| CallLock (key : gostring) (sourceAddr : option gostring)
| CallUnlock (key : gostring)
| CallResetByKey (key : gostring)
| CallResetBySource (sourceAddr : option gostring).

Definition run_call (fuel : nat) (c : call) : M termination :=
  match c with
  | CallLock key sourceAddr => Lock fuel key sourceAddr
  | CallUnlock key => Unlock fuel key
  | CallResetByKey key => ResetByKey fuel key
  | CallResetBySource sourceAddr => ResetBySource fuel sourceAddr
  end.

(** The arguments each operation hands to [l.query]. *)
Definition call_frame (c : call) : fallible (list byte) :=
  match c with
  | CallLock key sourceAddr => preparePackage maLock key sourceAddr
  | CallUnlock key => preparePackage maUnlock key None
  | CallResetByKey key => preparePackage maResetByKey key None
  | CallResetBySource sourceAddr =>
      preparePackage maResetBySource [] sourceAddr
  end.

Definition call_errfmt (c : call) : string :=
  match c with
  | CallLock _ _ => locking_error_fmt
  | CallUnlock _ => unlocking_error_fmt
  | CallResetByKey _ => reseting_error_fmt
  | CallResetBySource _ => reseting_error_fmt
  end.

(** The bytes of an optional source address. *)
Definition source_bytes (sourceAddr : option gostring) : gostring :=
  match sourceAddr with
  | Some s => s
  | None => []
  end.

(** [att] behaves as one attempt whose encoder result is [pp] and whose
    report uses [errfmt]. *)
Definition is_attempt (att : M bool) (pp : fallible (list byte))
    (errfmt : string) : Prop :=
  forall w, exists snt,
    att w =
    (attempt_ok (net w (dialed w)) pp,
     {| net := net w; dialed := S (dialed w); sent := snt;
        trace := trace w ++ attempt_trace (net w (dialed w)) pp errfmt |}).

(** The loop in closed form, over the outcomes [n i], [n (i + 1)], ... of
    the dials: whether it returns within [fuel] attempts, how many attempts
    fail before that, and its events. *)
Fixpoint run_result (fuel : nat) (n : nat -> dialOutcome) (i : nat)
    (pp : fallible (list byte)) : termination :=
  match fuel with
  | O => Looping
  | S fuel' =>
      if attempt_ok (n i) pp then Returned else run_result fuel' n (S i) pp
  end.

Fixpoint run_failures (fuel : nat) (n : nat -> dialOutcome) (i : nat)
    (pp : fallible (list byte)) : nat :=
  match fuel with
  | O => O
  | S fuel' =>
      if attempt_ok (n i) pp then O else S (run_failures fuel' n (S i) pp)
  end.

Fixpoint run_trace (fuel : nat) (n : nat -> dialOutcome) (i : nat)
    (pp : fallible (list byte)) (errfmt : string) : list event :=
  match fuel with
  | O => []
  | S fuel' =>
      attempt_trace (n i) pp errfmt ++
      (if attempt_ok (n i) pp then []
       else EvSleep queueRetryDuration :: run_trace fuel' n (S i) pp errfmt)
  end.

(** The life of a connection: none in use, connected, request written,
    exchange over (the answer read, or the write failed). *)
Inductive phase : Type := Idle | Connected | Sent | Over.

(** The discipline of the connections: a dial only when no connection is in
    use, one write per connection, a read only after a write that went
    through, a close only of a connection in use, a sleep only when no
    connection is in use. [None] when an event breaks it. *)
Fixpoint protocol (ph : phase) (tr : list event) : option phase :=
  match tr with
  | [] => Some ph
  | ev :: tr' =>
      match ev, ph with
      | EvDial true, Idle => protocol Connected tr'
      | EvDial false, Idle => protocol Idle tr'
      | EvWrite _ true, Connected => protocol Sent tr'
      | EvWrite _ false, Connected => protocol Over tr'
      | EvRead _, Sent => protocol Over tr'
      | EvClose, (Connected | Sent | Over) => protocol Idle tr'
      | EvSleep _, Idle => protocol Idle tr'
      | EvPrintf _ _, _ => protocol ph tr'
      | _, _ => None
      end
  end.

(** The dial of the attempt that ends a call, if it has returned. *)
Definition last_dial (r : termination) : nat :=
  match r with Returned => 1 | Looping => 0 end.

Definition last_tick (r : termination) : list tick :=
  match r with Returned => [TDial] | Looping => [] end.

(** An attempt with encoder result [pp] on the dial outcome [o] sends a
    frame and receives the acknowledgment. *)
Definition attempt_acknowledged (o : dialOutcome)
    (pp : fallible (list byte)) : Prop :=
  exists frame, pp = Ok frame /\ acknowledged o frame.

(** ** The constructor *)

Section Constructor.

(** [*net.TCPAddr], the resolver [net.ResolveTCPAddr("tcp", address)] and
    the error of [conn.Close()] belong to package net. *)
Variable TCPAddr : Type.
Variable net_ResolveTCPAddr : gostring -> fallible TCPAddr.
Variable close_error : TCPConn -> option error.

Record lockingCenter : Type := { address : TCPAddr }.

(** [conn.Close()] with its error looked at. *)
Definition conn_Close_error (conn : TCPConn) : M (option error) :=
  (conn_Close conn ;; ret (close_error conn))%io.

Definition ping (l : lockingCenter) : M (option error) :=
  (d <- net_DialTCP ;;
   match d with
   | Err err => ret (Some err)
   | Ok conn => conn_Close_error conn
   end)%io.

Definition NewLockingCenter (addressText : gostring)
  : M (fallible lockingCenter) :=
  match net_ResolveTCPAddr addressText with
  | Err err => ret (Err err)
  | Ok addr =>
      let lc := {| address := addr |} in
      (perr <- ping lc ;;
       match perr with
       | Some err => ret (Err err)
       | None => ret (Ok lc)
       end)%io
  end.

End Constructor.

Arguments address {TCPAddr} l.
Arguments ping {TCPAddr} close_error l.

(** ** The earlier revisions of the client *)

(** The first revision: the frame is the key-length byte, the key, and the
    action byte last; every action needs a key. *)
Module Part001.

Definition preparePackage (key : gostring) (action : byte)
  : fallible (list byte) :=
  if (len key =? 0) || (len key >? 128)
  then Err (Errorf invalid_key_msg)
  else
    (let buffer : Buffer := [] in
     let keySize := int8 (len key) in
     buffer <- binary_Write buffer (DInt8 keySize) ;;
     buffer <- binary_Write buffer (DBytes key) ;;
     buffer <- binary_Write buffer (DUint8 action) ;;
     Ok buffer)%fallible.

End Part001.

(** The second revision: the same frame, with a flag that lets
    ResetBySource send its source address, possibly empty, in the place of
    the key. *)
Module Part000.

Definition preparePackage (key : gostring) (emptyAllowed : bool)
    (action : mutexAction) : fallible (list byte) :=
  if (negb emptyAllowed && (len key =? 0)) || (len key >? 128)
  then Err (Errorf invalid_key_msg)
  else
    (let buffer : Buffer := [] in
     let keySize := int8 (len key) in
     buffer <- binary_Write buffer (DInt8 keySize) ;;
     buffer <- binary_Write buffer (DBytes key) ;;
     buffer <- binary_Write buffer (DUint8 action) ;;
     Ok buffer)%fallible.

Definition query (conn : TCPConn) (key : gostring) (emptyAllowed : bool)
    (action : mutexAction) : M (option error) :=
  match preparePackage key emptyAllowed action with
  | Err err => ret (Some err)
  | Ok payload =>
      (werr <- conn_Write conn payload ;;
       match werr with
       | Some err => ret (Some err)
       | None =>
           ok <- result conn ;;
           if negb ok then ret (Some (Errorf remote_error_msg))
           else ret None
       end)%io
  end.

Definition ResetBySource (fuel : nat) (sourceAddr : gostring)
  : M termination :=
  let query : M bool :=
    (d <- net_DialTCP ;;
     match d with
     | Err err => fmt_Printf connection_failure_fmt err ;; ret false
     | Ok conn =>
         qerr <- query conn sourceAddr true maResetBySource ;;
         match qerr with
         | Some err =>
             fmt_Printf reseting_error_fmt err ;; conn_Close conn ;; ret false
         | None => conn_Close conn ;; ret true
         end
     end)%io in
  retry fuel query.

End Part000.

(** * Properties *)

(** ** Bytes and [int8] *)

Lemma byte_to_Z_range (b : byte) : 0 <= byte_to_Z b < 256.
Proof.
  unfold byte_to_Z. pose proof (Byte.to_N_bounded b) as H. lia.
Qed.

Lemma byte_to_Z_of_Z (z : Z) : byte_to_Z (byte_of_Z z) = z mod 256.
Proof.
  assert (Hr : 0 <= z mod 256 < 256) by (apply Z.mod_pos_bound; lia).
  unfold byte_to_Z, byte_of_Z.
  destruct (Byte.of_N (Z.to_N (z mod 256))) as [b|] eqn:E.
  - apply Byte.to_of_N in E. rewrite E. lia.
  - apply Byte.of_N_None_iff in E. lia.
Qed.

Lemma byte_of_Z_int8 (z : Z) : byte_of_Z (int8 z) = byte_of_Z z.
Proof.
  unfold byte_of_Z, int8.
  replace (((z + 128) mod 256 - 128) mod 256) with (z mod 256); [reflexivity|].
  rewrite Zminus_mod, Zmod_mod, <- Zminus_mod. f_equal. lia.
Qed.

Lemma int8_range (z : Z) : -128 <= int8 z < 128.
Proof.
  unfold int8. pose proof (Z.mod_pos_bound (z + 128) 256). lia.
Qed.

Lemma int8_small (z : Z) : -128 <= z < 128 -> int8 z = z.
Proof.
  intros H. unfold int8. rewrite Z.mod_small; lia.
Qed.

Lemma int8_high (z : Z) : 128 <= z < 256 -> int8 z = z - 256.
Proof.
  intros H. unfold int8.
  replace (z + 128) with ((z - 128) + 1 * 256) by lia.
  rewrite Z_mod_plus_full, Z.mod_small; lia.
Qed.

Lemma int8_of_length_byte (z : Z) :
  0 <= z < 256 -> int8_of_byte (byte_of_Z z) = int8 z.
Proof.
  intros H. unfold int8_of_byte. rewrite byte_to_Z_of_Z, Z.mod_small; auto.
Qed.

Lemma len_nonneg (s : gostring) : 0 <= len s.
Proof. unfold len. lia. Qed.

Lemma len_nil_iff (s : gostring) : len s = 0 <-> s = [].
Proof.
  unfold len. destruct s; simpl; split; intros H; try reflexivity;
    try discriminate; lia.
Qed.

Lemma len_app (s t : gostring) : len (s ++ t) = len s + len t.
Proof. unfold len. rewrite length_app. lia. Qed.

(** ** The encoder *)

Lemma byte_eqb_neq (a b : byte) : a <> b -> Byte.eqb a b = false.
Proof.
  intros H. destruct (Byte.eqb a b) eqn:E; [|reflexivity].
  apply Byte.byte_dec_bl in E. contradiction.
Qed.

Lemma byte_eqb_refl (a : byte) : Byte.eqb a a = true.
Proof. apply Byte.byte_dec_lb. reflexivity. Qed.

Lemma byte_eqb_eq (a b : byte) : Byte.eqb a b = true -> a = b.
Proof. apply Byte.byte_dec_bl. Qed.

(** What [preparePackage] returns, in closed form: the guard, then the
    header and the source field. *)
Lemma preparePackage_unfold (action : mutexAction) (key : gostring)
    (sourceAddr : option gostring) :
  preparePackage action key sourceAddr =
  if (negb (Byte.eqb action maResetBySource) && (len key =? 0))
     || (len key >? 128)
  then Err (Errorf invalid_key_msg)
  else Ok (header action key ++
           (if needs_source action then
              match sourceAddr with
              | Some s => byte_of_Z (len s) :: s
              | None => [x00]
              end
            else [])).
Proof.
  unfold preparePackage, header.
  destruct (_ || _); [reflexivity|].
  destruct (needs_key action), (needs_source action), sourceAddr; simpl;
    rewrite ?byte_of_Z_int8, <- ?app_assoc; simpl; rewrite ?app_nil_r;
    reflexivity.
Qed.

Lemma guard_false_iff (action : mutexAction) (key : gostring) :
  (negb (Byte.eqb action maResetBySource) && (len key =? 0))
  || (len key >? 128) = false <-> key_accepted action key.
Proof.
  unfold key_accepted. rewrite orb_false_iff, andb_false_iff, negb_false_iff.
  rewrite Z.gtb_ltb, Z.ltb_ge, Z.eqb_neq. split.
  - intros [[H | H] H']; split; auto. intros Hn. apply byte_eqb_eq in H.
    contradiction.
  - intros [H H']. split; auto.
    destruct (Byte.eqb action maResetBySource) eqn:E; auto.
    right. apply H. intros ->. rewrite byte_eqb_refl in E. discriminate.
Qed.

Lemma preparePackage_accepted (action : mutexAction) (key : gostring)
    (sourceAddr : option gostring) :
  key_accepted action key ->
  preparePackage action key sourceAddr =
  Ok (header action key ++
      (if needs_source action then
         match sourceAddr with
         | Some s => byte_of_Z (len s) :: s
         | None => [x00]
         end
       else [])).
Proof.
  intros H. rewrite preparePackage_unfold.
  apply guard_false_iff in H. rewrite H. reflexivity.
Qed.

Lemma preparePackage_rejected (action : mutexAction) (key : gostring)
    (sourceAddr : option gostring) :
  ~ key_accepted action key ->
  preparePackage action key sourceAddr = Err (Errorf invalid_key_msg).
Proof.
  intros H. rewrite preparePackage_unfold.
  destruct (_ || _) eqn:E; [reflexivity|].
  apply guard_false_iff in E. contradiction.
Qed.

Lemma preparePackage_ok_inv (action : mutexAction) (key : gostring)
    (sourceAddr : option gostring) (frame : list byte) :
  preparePackage action key sourceAddr = Ok frame -> key_accepted action key.
Proof.
  intros H. rewrite preparePackage_unfold in H.
  destruct (_ || _) eqn:E; [discriminate|].
  apply guard_false_iff in E. exact E.
Qed.

Lemma key_action_cases (action : mutexAction) :
  In action [maLock; maUnlock; maResetByKey] ->
  needs_key action = true /\ action <> maResetBySource.
Proof.
  simpl. intros [<- | [<- | [<- | []]]]; split; try reflexivity; discriminate.
Qed.

Lemma firstn_length_app {A} (l l' : list A) :
  firstn (List.length l) (l ++ l') = l.
Proof.
  rewrite firstn_app, firstn_all, Nat.sub_diag. simpl. apply app_nil_r.
Qed.

Lemma skipn_length_app {A} (l l' : list A) :
  skipn (List.length l) (l ++ l') = l'.
Proof.
  rewrite skipn_app, skipn_all, Nat.sub_diag. reflexivity.
Qed.

(** A field whose length fits its length byte is read back, whatever
    follows it. *)
Lemma read_field_length_prefixed (s rest : gostring) :
  len s <= 255 ->
  read_field (byte_of_Z (len s) :: s ++ rest) = Some (s, rest).
Proof.
  intros H. pose proof (len_nonneg s) as H0. unfold read_field.
  rewrite byte_to_Z_of_Z, Z.mod_small by lia.
  rewrite len_app.
  destruct (len s + len rest <? len s) eqn:E2.
  - apply Z.ltb_lt in E2. pose proof (len_nonneg rest). lia.
  - unfold len. rewrite Nat2Z.id, firstn_length_app, skipn_length_app.
    reflexivity.
Qed.

(** C2, as the code has it: for a key that [preparePackage] accepts for
    Lock, Unlock or ResetByKey (1 to 128 bytes), the key-length byte of the
    frame holds the length, and read as a signed 8-bit integer it is
    non-negative exactly when the key has at most 127 bytes; for a key of 128
    bytes it is -128. *)
Theorem key_length_byte_signed (action : mutexAction) (key : gostring)
    (sourceAddr : option gostring) (frame : list byte) :
  In action [maLock; maUnlock; maResetByKey] ->
  preparePackage action key sourceAddr = Ok frame ->
  1 <= len key <= 128 /\
  byte_to_Z (nth 1 frame x00) = len key /\
  (0 <= int8_of_byte (nth 1 frame x00) <-> len key <= 127) /\
  (len key = 128 -> int8_of_byte (nth 1 frame x00) = -128).
Proof.
  intros Ha Hf. destruct (key_action_cases _ Ha) as [Hk Hn].
  pose proof (preparePackage_ok_inv _ _ _ _ Hf) as [Hne Hle].
  specialize (Hne Hn). pose proof (len_nonneg key) as H0.
  rewrite preparePackage_accepted in Hf by (split; auto).
  injection Hf as <-. unfold header. rewrite Hk. simpl.
  rewrite int8_of_length_byte, byte_to_Z_of_Z, Z.mod_small by lia.
  repeat split; try lia.
  - intros H. destruct (Z.eq_dec (len key) 128) as [E|E]; [|lia].
    rewrite E in H. vm_compute in H. exfalso. apply H. reflexivity.
  - intros H. rewrite int8_small; lia.
  - intros ->. reflexivity.
Qed.

Lemma key_length_byte_signed_witness :
  In maUnlock [maLock; maUnlock; maResetByKey] /\
  byte_to_Z (nth 1 [x02; x03; "a"; "a"; "a"]%byte x00) = len (key_of_length 3).
Proof.
  split; [simpl; auto|].
  apply (key_length_byte_signed maUnlock (key_of_length 3) None
           [x02; x03; "a"; "a"; "a"]%byte); [simpl; auto | reflexivity].
Defined.

(** C2 fails at the ceiling: a key of 128 bytes is accepted and its length
    byte, read as a signed 8-bit integer, is negative. *)
Lemma key_length_byte_negative_at_128 :
  1 <= len (key_of_length 128) <= 128 /\
  exists frame,
    preparePackage maLock (key_of_length 128) None = Ok frame /\
    int8_of_byte (nth 1 frame x00) < 0.
Proof.
  split; [vm_compute; split; discriminate|].
  eexists. split; [vm_compute; reflexivity|]. vm_compute. reflexivity.
Qed.

(** C3: for Lock, Unlock and ResetByKey, [preparePackage] rejects every empty
    key and every key longer than 128 bytes with the invalid-key error, so
    that no bytes are produced; for ResetBySource the empty key is accepted. *)
Theorem preparePackage_key_validation :
  (forall action key sourceAddr,
      In action [maLock; maUnlock; maResetByKey] ->
      len key = 0 \/ 128 < len key ->
      preparePackage action key sourceAddr = Err (Errorf invalid_key_msg)) /\
  (forall sourceAddr,
      exists frame, preparePackage maResetBySource [] sourceAddr = Ok frame).
Proof.
  split.
  - intros action key sourceAddr Ha Hk.
    destruct (key_action_cases _ Ha) as [_ Hn].
    apply preparePackage_rejected. intros [H1 H2]. specialize (H1 Hn). lia.
  - intros sourceAddr. eexists. apply preparePackage_accepted.
    split; [intros H; exfalso; apply H; reflexivity | vm_compute; discriminate].
Qed.

Lemma preparePackage_key_validation_witness :
  preparePackage maResetByKey [] None = Err (Errorf invalid_key_msg) /\
  preparePackage maLock (key_of_length 129) None = Err (Errorf invalid_key_msg).
Proof.
  split; apply (proj1 preparePackage_key_validation).
  - simpl; auto.
  - left; reflexivity.
  - simpl; auto.
  - right; vm_compute; reflexivity.
Defined.

(** C4: for every input that passes the key check, [preparePackage] produces
    exactly the frame of the layout table: the action code (1 Lock, 2 Unlock,
    3 ResetByKey, 4 ResetBySource); for Lock, Unlock and ResetByKey the
    key-length byte and the key; for Lock and ResetBySource the source-length
    byte (0 if the source is absent) and the source bytes when present. *)
Theorem preparePackage_frame_layout (a : Action) (key : gostring)
    (sourceAddr : option gostring) :
  (requires_key a = true -> 1 <= len key) ->
  len key <= 128 ->
  preparePackage (action_code a) key sourceAddr
  = Ok (frame_layout a key sourceAddr).
Proof.
  intros Hk Hle. rewrite preparePackage_accepted.
  - destruct a, sourceAddr; reflexivity.
  - split; auto. intros Hn. destruct a;
      try (specialize (Hk eq_refl); lia). exfalso. apply Hn. reflexivity.
Qed.

Lemma preparePackage_frame_layout_witness :
  preparePackage maLock (key_of "job") (Some (key_of "n1"))
  = Ok [x01; x03; "j"; "o"; "b"; x02; "n"; "1"]%byte.
Proof.
  apply (preparePackage_frame_layout ALock (key_of "job") (Some (key_of "n1")));
    [intros _; vm_compute; discriminate | vm_compute; discriminate].
Defined.

(** C7: for every key of 1 to 128 bytes, decoding the frame that
    [preparePackage] builds for Lock without a source, by the layout of the
    frames, gives back Lock, the same key bytes and an absent source. *)
Theorem decode_preparePackage_Lock (key : gostring) :
  1 <= len key <= 128 ->
  exists frame,
    preparePackage maLock key None = Ok frame /\
    decode frame = Some (ALock, key, None).
Proof.
  intros H. eexists. split.
  - apply preparePackage_accepted. split; lia.
  - change (header maLock key ++ _) with
      (maLock :: byte_of_Z (len key) :: key ++ [x00]).
    unfold decode. change (action_of_code maLock) with (Some ALock).
    cbv iota. change (requires_key ALock) with true. cbv iota.
    rewrite read_field_length_prefixed by lia.
    reflexivity.
Qed.

Lemma decode_preparePackage_Lock_witness :
  exists frame,
    preparePackage maLock (key_of_length 128) None = Ok frame /\
    decode frame = Some (ALock, key_of_length 128, None).
Proof.
  apply (decode_preparePackage_Lock (key_of_length 128)).
  vm_compute. split; discriminate.
Defined.

(** C9: for Lock and ResetBySource, the frame built with no source address is
    byte for byte the frame built with an empty source address: after the
    header, a source-length byte 0 and no source bytes. *)
Theorem nil_source_same_frame (action : mutexAction) (key : gostring) :
  In action [maLock; maResetBySource] ->
  preparePackage action key None = preparePackage action key (Some []) /\
  (key_accepted action key ->
   preparePackage action key (Some []) = Ok (header action key ++ [x00])).
Proof.
  intros Ha.
  assert (Hs : needs_source action = true)
    by (destruct Ha as [<- | [<- | []]]; reflexivity).
  split.
  - rewrite !preparePackage_unfold. rewrite Hs. reflexivity.
  - intros Hk. rewrite preparePackage_accepted by assumption.
    rewrite Hs. reflexivity.
Qed.

Lemma nil_source_same_frame_witness :
  preparePackage maLock (key_of "job") None
  = preparePackage maLock (key_of "job") (Some []).
Proof.
  apply (proj1 (nil_source_same_frame maLock (key_of "job")
                  (or_introl eq_refl))).
Defined.

(** C10: the source address is never checked for length. For Lock and
    ResetBySource with a key that passes the key check and a source address
    of more than 127 bytes, [preparePackage] succeeds; the source-length byte
    holds the length modulo 256, and read as a signed 8-bit integer it is
    negative for the lengths 128 to 255. *)
Theorem source_length_unchecked (action : mutexAction) (key s : gostring) :
  In action [maLock; maResetBySource] ->
  key_accepted action key ->
  127 < len s ->
  exists b,
    preparePackage action key (Some s) = Ok (header action key ++ b :: s) /\
    byte_to_Z b = len s mod 256 /\
    (128 <= len s <= 255 ->
     int8_of_byte b = len s - 256 /\ int8_of_byte b < 0).
Proof.
  intros Ha Hk Hs.
  assert (Hn : needs_source action = true)
    by (destruct Ha as [<- | [<- | []]]; reflexivity).
  exists (byte_of_Z (len s)). split; [|split].
  - rewrite preparePackage_accepted by assumption. rewrite Hn. reflexivity.
  - apply byte_to_Z_of_Z.
  - intros H. rewrite int8_of_length_byte, int8_high by lia. lia.
Qed.

Lemma source_length_unchecked_witness :
  exists b,
    preparePackage maResetBySource [] (Some (key_of_length 200))
    = Ok (header maResetBySource [] ++ b :: key_of_length 200) /\
    byte_to_Z b = len (key_of_length 200) mod 256 /\
    (128 <= len (key_of_length 200) <= 255 ->
     int8_of_byte b = len (key_of_length 200) - 256 /\ int8_of_byte b < 0).
Proof.
  apply (source_length_unchecked maResetBySource [] (key_of_length 200)).
  - simpl; auto.
  - split; [intros H; exfalso; apply H; reflexivity | vm_compute; discriminate].
  - vm_compute; reflexivity.
Defined.

(** ** The acknowledgment *)

(** C5: [result] is true only when the one response byte is 0x2B, the
    character [+]; for every other byte, and when no byte can be read, it is
    false. *)
Theorem result_true_only_for_plus (conn : TCPConn) (w : World) :
  byte_to_Z plus_sign = 43 /\
  (fst (result conn w) = true <-> on_read conn (sent w) = Some plus_sign) /\
  (forall b, on_read conn (sent w) = Some b -> b <> plus_sign ->
             fst (result conn w) = false) /\
  (on_read conn (sent w) = None -> fst (result conn w) = false).
Proof.
  unfold result, bind, io_ReadAtLeast1, ret.
  split; [reflexivity|].
  destruct (on_read conn (sent w)) as [b|]; simpl.
  - split; [|split].
    + split.
      * intros H. apply byte_eqb_eq in H. congruence.
      * intros H. injection H as ->. apply byte_eqb_refl.
    + intros b' H Hn. injection H as <-. apply byte_eqb_neq. exact Hn.
    + discriminate.
  - split; [|split]; try discriminate; auto.
    split; discriminate.
Qed.

Lemma result_true_only_for_plus_witness :
  fst (result ack_conn ack_world) = true /\
  fst (result closing_conn ack_world) = false.
Proof.
  split.
  - apply (proj1 (proj2 (result_true_only_for_plus ack_conn ack_world))).
    reflexivity.
  - apply (proj2 (proj2 (proj2
             (result_true_only_for_plus closing_conn ack_world)))).
    reflexivity.
Defined.

(** ** One attempt *)

Lemma Lock_attempt (fuel : nat) (key : gostring) (src : option gostring) :
  Lock fuel key src = retry fuel (attempt maLock key src locking_error_fmt).
Proof. reflexivity. Qed.

Lemma Unlock_attempt (fuel : nat) (key : gostring) :
  Unlock fuel key
  = retry fuel (attempt maUnlock key None unlocking_error_fmt).
Proof. reflexivity. Qed.

Lemma ResetByKey_attempt (fuel : nat) (key : gostring) :
  ResetByKey fuel key
  = retry fuel (attempt maResetByKey key None reseting_error_fmt).
Proof. reflexivity. Qed.

Lemma ResetBySource_attempt (fuel : nat) (src : option gostring) :
  ResetBySource fuel src
  = retry fuel (attempt maResetBySource [] src reseting_error_fmt).
Proof. reflexivity. Qed.

Lemma attempt_closed_form (action : mutexAction) (key : gostring)
    (src : option gostring) (errfmt : string) (w : World) :
  exists snt,
    attempt action key src errfmt w =
    (attempt_ok (net w (dialed w)) (preparePackage action key src),
     {| net := net w; dialed := S (dialed w); sent := snt;
        trace := trace w ++
                 attempt_trace (net w (dialed w))
                   (preparePackage action key src) errfmt |}).
Proof.
  unfold attempt, bind, net_DialTCP, query, attempt_trace, attempt_ok.
  destruct (net w (dialed w)) as [e|c].
  - eexists. cbn. rewrite <- app_assoc. reflexivity.
  - destruct (preparePackage action key src) as [payload|e].
    + unfold bind, conn_Write, result, bind, io_ReadAtLeast1.
      destruct (on_write c payload) as [e|].
      * eexists. cbn. rewrite <- !app_assoc. reflexivity.
      * cbn. destruct (on_read c payload) as [b|].
        -- cbn. destruct (Byte.eqb b plus_sign); cbn;
             rewrite <- !app_assoc; eexists; reflexivity.
        -- cbn. rewrite <- !app_assoc. eexists. reflexivity.
    + eexists. cbn. rewrite <- !app_assoc. reflexivity.
Qed.

Lemma ticks_app (s t : list event) : ticks (s ++ t) = ticks s ++ ticks t.
Proof.
  induction s as [|[] s IH]; simpl; rewrite ?IH; reflexivity.
Qed.

Lemma requests_app (s t : list event) :
  requests (s ++ t) = requests s ++ requests t.
Proof.
  induction s as [|[| p [] | | | |] s IH]; simpl; rewrite ?IH; reflexivity.
Qed.

Lemma writes_app (s t : list event) : writes (s ++ t) = writes s ++ writes t.
Proof.
  induction s as [|[] s IH]; simpl; rewrite ?IH; reflexivity.
Qed.

Lemma acks_app (s t : list event) : acks (s ++ t) = (acks s + acks t)%nat.
Proof.
  induction s as [|[| | [b|] | | |] s IH]; simpl; rewrite ?IH; try reflexivity.
  destruct (Byte.eqb b plus_sign); reflexivity.
Qed.

Lemma reports_app (s t : list event) :
  reports (s ++ t) = (reports s + reports t)%nat.
Proof.
  induction s as [|[] s IH]; simpl; rewrite ?IH; reflexivity.
Qed.

Lemma attempt_trace_ticks o pp errfmt :
  ticks (attempt_trace o pp errfmt) = [TDial].
Proof.
  unfold attempt_trace. destruct o as [e|c]; [reflexivity|].
  destruct pp as [payload|e]; [|reflexivity].
  destruct (on_write c payload); [reflexivity|].
  destruct (attempt_ok _ _); reflexivity.
Qed.

Lemma attempt_ok_Err o e : attempt_ok o (Err e) = false.
Proof. destruct o; reflexivity. Qed.

Lemma attempt_trace_Err o e errfmt :
  writes (attempt_trace o (Err e) errfmt) = [] /\
  reports (attempt_trace o (Err e) errfmt) = 1%nat.
Proof. destruct o; split; reflexivity. Qed.

Lemma attempt_ok_true o pp :
  attempt_ok o pp = true ->
  exists frame, pp = Ok frame /\ acknowledged o frame.
Proof.
  unfold attempt_ok, acknowledged. destruct o as [e|c]; [discriminate|].
  destruct pp as [payload|e]; [|discriminate].
  destruct (on_write c payload) eqn:Ew; [discriminate|].
  destruct (on_read c payload) as [b|] eqn:Er; [|discriminate].
  intros H. apply byte_eqb_eq in H. subst b. eauto.
Qed.

Lemma acknowledged_ok o frame :
  acknowledged o frame -> attempt_ok o (Ok frame) = true.
Proof.
  unfold attempt_ok, acknowledged. destruct o as [e|c]; [contradiction|].
  intros [-> ->]. apply byte_eqb_refl.
Qed.

Lemma transient_failure_not_ok o frame :
  transient_failure o frame -> attempt_ok o (Ok frame) = false.
Proof.
  unfold attempt_ok, transient_failure. destruct o as [e|c]; [reflexivity|].
  intros [[e ->] | [[-> ->] | [-> [b [-> Hb]]]]]; try reflexivity.
  apply byte_eqb_neq. exact Hb.
Qed.

Lemma attempt_trace_acked o frame errfmt :
  attempt_ok o (Ok frame) = true ->
  requests (attempt_trace o (Ok frame) errfmt) = [frame] /\
  acks (attempt_trace o (Ok frame) errfmt) = 1%nat.
Proof.
  intros H. unfold attempt_trace. rewrite H. revert H. unfold attempt_ok.
  destruct o as [e|c]; [discriminate|].
  destruct (on_write c frame); [discriminate|].
  destruct (on_read c frame) as [b|]; [|discriminate].
  intros H. simpl. rewrite H. split; reflexivity.
Qed.

Lemma attempt_trace_failed o frame errfmt :
  attempt_ok o (Ok frame) = false ->
  Forall (eq frame) (requests (attempt_trace o (Ok frame) errfmt)) /\
  acks (attempt_trace o (Ok frame) errfmt) = 0%nat.
Proof.
  intros H. unfold attempt_trace. rewrite H. revert H. unfold attempt_ok.
  destruct o as [e|c]; [split; [constructor|reflexivity]|].
  destruct (on_write c frame); [split; [constructor|reflexivity]|].
  destruct (on_read c frame) as [b|]; simpl.
  - intros ->. split; [repeat constructor|reflexivity].
  - intros _. split; [repeat constructor|reflexivity].
Qed.

Lemma attempt_trace_failed_reports o pp errfmt :
  attempt_ok o pp = false -> reports (attempt_trace o pp errfmt) = 1%nat.
Proof.
  intros H. unfold attempt_trace. rewrite H.
  destruct o as [e|c]; [reflexivity|].
  destruct pp as [payload|e]; [|reflexivity].
  destruct (on_write c payload); reflexivity.
Qed.

Lemma attempt_trace_acked_reports o pp errfmt :
  attempt_ok o pp = true -> reports (attempt_trace o pp errfmt) = 0%nat.
Proof.
  intros H. unfold attempt_trace. rewrite H. revert H. unfold attempt_ok.
  destruct o as [e|c]; [discriminate|].
  destruct pp as [payload|e]; [|discriminate].
  destruct (on_write c payload); [discriminate|]. reflexivity.
Qed.

Lemma retry_ticks_S (N : nat) :
  retry_ticks (S N) = TDial :: TSleep queueRetryDuration :: retry_ticks N.
Proof. reflexivity. Qed.

(** ** The retry loop *)

Section Retry.

Variables (action : mutexAction) (key : gostring) (src : option gostring).
Variable errfmt : string.

Local Abbreviation pp := (preparePackage action key src).
Local Abbreviation att := (attempt action key src errfmt).

(** A failed attempt is followed by the sleep and the rest of the loop. *)
Lemma retry_step_failed (fuel : nat) (w : World) :
  attempt_ok (net w (dialed w)) pp = false ->
  exists snt,
    retry (S fuel) att w =
    retry fuel att
      {| net := net w; dialed := S (dialed w); sent := snt;
         trace := trace w ++
                  attempt_trace (net w (dialed w)) pp errfmt ++
                  [EvSleep queueRetryDuration] |}.
Proof.
  intros H. destruct (attempt_closed_form action key src errfmt w)
    as [snt E].
  exists snt. simpl. unfold bind at 1. rewrite E, H. simpl.
  unfold bind, time_Sleep, emit. simpl. rewrite <- app_assoc. reflexivity.
Qed.

(** An acknowledged attempt ends the loop. *)
Lemma retry_step_acked (fuel : nat) (w : World) :
  attempt_ok (net w (dialed w)) pp = true ->
  exists snt,
    retry (S fuel) att w =
    (Returned,
     {| net := net w; dialed := S (dialed w); sent := snt;
        trace := trace w ++ attempt_trace (net w (dialed w)) pp errfmt |}).
Proof.
  intros H. destruct (attempt_closed_form action key src errfmt w)
    as [snt E].
  exists snt. simpl. unfold bind at 1. rewrite E, H.
  reflexivity.
Qed.

(** With a key that the encoder rejects, the loop goes on as long as there
    is fuel, and no byte reaches a connection. *)
Lemma retry_encoding_error (e : error) :
  pp = Err e ->
  forall (fuel : nat) (w : World), keeps_retrying fuel w (retry fuel att w).
Proof.
  intros He fuel. unfold keeps_retrying.
  induction fuel as [|fuel IH]; intros w.
  - simpl. repeat split; [lia|]. exists []. rewrite app_nil_r.
    repeat split.
  - assert (Hf : attempt_ok (net w (dialed w)) pp = false)
      by (rewrite He; apply attempt_ok_Err).
    destruct (retry_step_failed fuel w Hf) as [snt ->].
    match goal with |- context [retry fuel att ?w1] =>
      destruct (IH w1) as [H1 [H2 [t [H3 [H4 [H5 H6]]]]]] end.
    simpl in H2, H3. split; [exact H1|]. split; [lia|].
    eexists. split; [rewrite H3, <- !app_assoc; reflexivity|].
    rewrite He in *.
    destruct (attempt_trace_Err (net w (dialed w)) e errfmt) as [Hw Hr].
    rewrite !ticks_app, !writes_app, !reports_app, attempt_trace_ticks.
    rewrite Hw, Hr, H4, H5, H6. repeat split.
Qed.

(** After [N] failed attempts and an acknowledged one the loop has
    returned, having dialed [N + 1] times and slept [N] times. *)
Lemma retry_until_acknowledged (frame : list byte) :
  pp = Ok frame ->
  forall (N fuel : nat) (w : World),
    (forall i, (i < N)%nat ->
               attempt_ok (net w (dialed w + i)) (Ok frame) = false) ->
    attempt_ok (net w (dialed w + N)) (Ok frame) = true ->
    (N < fuel)%nat ->
    exists w',
      retry fuel att w = (Returned, w') /\
      dialed w' = (dialed w + N + 1)%nat /\
      exists t, trace w' = trace w ++ t /\
                ticks t = retry_ticks N ++ [TDial] /\
                acks t = 1%nat /\
                reports t = N.
Proof.
  intros Hp N. induction N as [|N IH]; intros fuel w Hfail Hok Hfuel.
  - destruct fuel as [|fuel]; [lia|].
    rewrite Nat.add_0_r, <- Hp in Hok.
    destruct (retry_step_acked fuel w Hok) as [snt ->].
    eexists. split; [reflexivity|]. simpl. split; [lia|].
    eexists. split; [reflexivity|].
    rewrite attempt_trace_ticks, (attempt_trace_acked_reports _ _ _ Hok).
    rewrite Hp in *.
    destruct (attempt_trace_acked _ _ errfmt Hok) as [_ Ha].
    rewrite Ha. repeat split.
  - destruct fuel as [|fuel]; [lia|].
    assert (H0 : attempt_ok (net w (dialed w)) pp = false).
    { rewrite Hp, <- (Nat.add_0_r (dialed w)). apply Hfail. lia. }
    destruct (retry_step_failed fuel w H0) as [snt ->].
    match goal with |- context [retry fuel att ?w1] =>
      destruct (IH fuel w1) as [w' [H1 [H2 [t [H3 [H4 [H5 H6]]]]]]] end.
    + cbn [net dialed]. intros i Hi. rewrite Nat.add_succ_comm.
      apply Hfail. lia.
    + cbn [net dialed]. rewrite Nat.add_succ_comm. exact Hok.
    + lia.
    + simpl in H2, H3. exists w'. split; [exact H1|]. split; [lia|].
      eexists. split; [rewrite H3, <- !app_assoc; reflexivity|].
      rewrite !ticks_app, !acks_app, !reports_app, attempt_trace_ticks.
      rewrite (attempt_trace_failed_reports _ _ _ H0).
      rewrite Hp in *.
      destruct (attempt_trace_failed _ _ errfmt H0) as [_ Ha].
      rewrite Ha, H4, H5, H6. repeat split.
Qed.

(** A loop that has returned sent an accepted frame, was acknowledged
    once, and wrote nothing but that frame. *)
Lemma retry_returned (fuel : nat) :
  forall (w w1 : World),
    retry fuel att w = (Returned, w1) ->
    exists frame t,
      pp = Ok frame /\
      trace w1 = trace w ++ t /\
      acks t = 1%nat /\
      Forall (eq frame) (requests t).
Proof.
  induction fuel as [|fuel IH]; intros w w1 H; [discriminate|].
  destruct (attempt_ok (net w (dialed w)) pp) eqn:Hok.
  - destruct (retry_step_acked fuel w Hok) as [snt E].
    rewrite E in H. injection H as <-.
    destruct (attempt_ok_true _ _ Hok) as [frame [Hp _]].
    exists frame. eexists. split; [exact Hp|]. split; [reflexivity|].
    rewrite Hp in *.
    destruct (attempt_trace_acked _ _ errfmt Hok) as [Hr Ha].
    rewrite Hr, Ha. split; [reflexivity | repeat constructor].
  - destruct (retry_step_failed fuel w Hok) as [snt E].
    rewrite E in H. apply IH in H.
    destruct H as [frame [t [Hp [Ht [Ha Hr]]]]]. simpl in Ht.
    exists frame. eexists. split; [exact Hp|].
    split; [rewrite Ht, <- !app_assoc; reflexivity|].
    rewrite Hp in *.
    destruct (attempt_trace_failed _ _ errfmt Hok) as [Hr0 Ha0].
    rewrite !acks_app, !requests_app, Ha0, Ha. split; [reflexivity|].
    apply Forall_app. split; [exact Hr0 | exact Hr].
Qed.

End Retry.

(** ** The blocking operations *)




(** C6: if the first [N] attempts of Lock fail, by a connect error, a write
    error, a read failure or a negative acknowledgment, and attempt [N + 1]
    receives the acknowledgment, then Lock returns after exactly [N + 1]
    dials, with one sleep of the retry interval between consecutive
    attempts. *)
Theorem Lock_returns_after_N_failures (N fuel : nat) (key : gostring)
    (src : option gostring) (frame : list byte) (w : World) :
  preparePackage maLock key src = Ok frame ->
  (forall i, (i < N)%nat -> transient_failure (net w (dialed w + i)) frame) ->
  acknowledged (net w (dialed w + N)) frame ->
  (N < fuel)%nat ->
  exists w',
    Lock fuel key src w = (Returned, w') /\
    dialed w' = (dialed w + N + 1)%nat /\
    exists t, trace w' = trace w ++ t /\
              ticks t = retry_ticks N ++ [TDial] /\
              acks t = 1%nat /\
              reports t = N.
Proof.
  intros Hp Hfail Hack Hfuel. rewrite Lock_attempt.
  apply (retry_until_acknowledged _ _ _ _ frame Hp N fuel w); auto.
  - intros i Hi. apply transient_failure_not_ok. auto.
  - apply acknowledged_ok. exact Hack.
Qed.

Lemma Lock_returns_after_N_failures_witness :
  exists w',
    Lock 5 (key_of "job") None (world_of flaky_net) = (Returned, w') /\
    dialed w' = 3%nat /\
    exists t, trace w' = [] ++ t /\
              ticks t = retry_ticks 2 ++ [TDial] /\
              acks t = 1%nat /\
              reports t = 2%nat.
Proof.
  apply (Lock_returns_after_N_failures 2 5 (key_of "job") None
           [x01; x03; "j"; "o"; "b"; x00]%byte (world_of flaky_net)).
  - reflexivity.
  - intros i Hi. destruct i as [|[|i]]; simpl.
    + exact I.
    + right. left. split; reflexivity.
    + lia.
  - simpl. split; reflexivity.
  - lia.
Defined.

(** * Further properties *)

(** ** The loop over any attempt *)

Lemma attempt_ok_iff_acknowledged o pp :
  attempt_ok o pp = true <-> attempt_acknowledged o pp.
Proof.
  split.
  - apply attempt_ok_true.
  - intros [frame [-> H]]. apply acknowledged_ok. exact H.
Qed.

Lemma protocol_app (s t : list event) :
  forall ph ph', protocol ph s = Some ph' ->
                 protocol ph (s ++ t) = protocol ph' t.
Proof.
  induction s as [|ev s IH]; intros ph ph' H.
  - simpl in H. injection H as ->. reflexivity.
  - destruct ev as [[]| p []| | | |]; destruct ph; simpl in *;
      try discriminate; eauto.
Qed.

Lemma attempt_trace_protocol o pp errfmt :
  protocol Idle (attempt_trace o pp errfmt) = Some Idle.
Proof.
  unfold attempt_trace. destruct o as [e|c]; [reflexivity|].
  destruct pp as [payload|e]; [|reflexivity].
  destruct (on_write c payload); [reflexivity|].
  destruct (attempt_ok _ _); reflexivity.
Qed.

Lemma attempt_trace_writes o pp errfmt :
  (forall frame, pp = Ok frame ->
                 Forall (eq frame) (writes (attempt_trace o pp errfmt))) /\
  (forall e, pp = Err e -> writes (attempt_trace o pp errfmt) = []) /\
  (List.length (writes (attempt_trace o pp errfmt)) <= 1)%nat.
Proof.
  assert (T : forall frame : list byte, Forall (eq frame) [frame])
    by (repeat constructor).
  unfold attempt_trace. destruct o as [e|c];
    [|destruct pp as [payload|e];
      [destruct (on_write c payload); [|destruct (attempt_ok _ _)]|]];
    (split; [|split]); simpl; try lia;
    try (intros ? H; discriminate H);
    try (intros frame H; injection H as ->; apply T);
    auto.
Qed.

Lemma attempt_trace_acks o pp errfmt :
  acks (attempt_trace o pp errfmt)
  = if attempt_ok o pp then 1%nat else 0%nat.
Proof.
  destruct pp as [frame|e].
  - destruct (attempt_ok o (Ok frame)) eqn:H.
    + apply attempt_trace_acked. exact H.
    + apply attempt_trace_failed. exact H.
  - rewrite attempt_ok_Err. destruct o; reflexivity.
Qed.

Section RunClosedForm.

Variables (n : nat -> dialOutcome) (pp : fallible (list byte)).
Variable errfmt : string.

Lemma run_failures_le (fuel i : nat) : (run_failures fuel n i pp <= fuel)%nat.
Proof.
  revert i. induction fuel as [|fuel IH]; intros i; simpl; [lia|].
  destruct (attempt_ok (n i) pp); [lia|]. specialize (IH (S i)). lia.
Qed.

Lemma run_Looping_failures (fuel i : nat) :
  run_result fuel n i pp = Looping -> run_failures fuel n i pp = fuel.
Proof.
  revert i. induction fuel as [|fuel IH]; intros i; simpl; [reflexivity|].
  destruct (attempt_ok (n i) pp); [discriminate|].
  intros H. rewrite IH; auto.
Qed.

(** The attempts before the one counted by [run_failures] are not
    acknowledged; that one is, if the loop has returned. *)
Lemma run_failures_first (fuel i : nat) :
  (forall j, (j < run_failures fuel n i pp)%nat ->
             attempt_ok (n (i + j)%nat) pp = false) /\
  (run_result fuel n i pp = Returned ->
   attempt_ok (n (i + run_failures fuel n i pp)%nat) pp = true).
Proof.
  revert i. induction fuel as [|fuel IH]; intros i; simpl.
  - split; [intros j Hj; lia | discriminate].
  - destruct (attempt_ok (n i) pp) eqn:Hok.
    + split; [intros j Hj; lia|]. intros _. rewrite Nat.add_0_r. exact Hok.
    + destruct (IH (S i)) as [H1 H2]. split.
      * intros [|j] Hj; [rewrite Nat.add_0_r; exact Hok|].
        rewrite <- Nat.add_succ_comm. apply H1. lia.
      * intros H. rewrite <- Nat.add_succ_comm. apply H2. exact H.
Qed.

Lemma run_result_Returned_iff (fuel i : nat) :
  run_result fuel n i pp = Returned <->
  exists k, (k < fuel)%nat /\ attempt_ok (n (i + k)%nat) pp = true.
Proof.
  revert i. induction fuel as [|fuel IH]; intros i; simpl.
  - split; [discriminate | intros [k [Hk _]]; lia].
  - destruct (attempt_ok (n i) pp) eqn:Hok.
    + split; [|reflexivity]. intros _. exists O.
      rewrite Nat.add_0_r. split; [lia | exact Hok].
    + rewrite IH. split.
      * intros [k [Hk H]]. exists (S k). rewrite <- Nat.add_succ_comm.
        split; [lia | exact H].
      * intros [[|k] [Hk H]].
        -- rewrite Nat.add_0_r in H. congruence.
        -- exists k. rewrite Nat.add_succ_comm. split; [lia | exact H].
Qed.

Lemma run_trace_ticks (fuel i : nat) :
  ticks (run_trace fuel n i pp errfmt)
  = retry_ticks (run_failures fuel n i pp)
    ++ last_tick (run_result fuel n i pp).
Proof.
  revert i. induction fuel as [|fuel IH]; intros i; simpl; [reflexivity|].
  rewrite ticks_app, attempt_trace_ticks.
  destruct (attempt_ok (n i) pp); [reflexivity|].
  simpl. rewrite IH. reflexivity.
Qed.

Lemma run_trace_reports (fuel i : nat) :
  reports (run_trace fuel n i pp errfmt) = run_failures fuel n i pp.
Proof.
  revert i. induction fuel as [|fuel IH]; intros i; simpl; [reflexivity|].
  rewrite reports_app. destruct (attempt_ok (n i) pp) eqn:Hok.
  - rewrite (attempt_trace_acked_reports _ _ _ Hok). reflexivity.
  - rewrite (attempt_trace_failed_reports _ _ _ Hok). simpl.
    rewrite IH. reflexivity.
Qed.

Lemma run_trace_acks (fuel i : nat) :
  acks (run_trace fuel n i pp errfmt)
  = last_dial (run_result fuel n i pp).
Proof.
  revert i. induction fuel as [|fuel IH]; intros i; simpl; [reflexivity|].
  rewrite acks_app, attempt_trace_acks.
  destruct (attempt_ok (n i) pp); [reflexivity|]. simpl. apply IH.
Qed.

Lemma run_trace_protocol (fuel i : nat) :
  protocol Idle (run_trace fuel n i pp errfmt) = Some Idle.
Proof.
  revert i. induction fuel as [|fuel IH]; intros i; simpl; [reflexivity|].
  rewrite (protocol_app _ _ _ _ (attempt_trace_protocol _ _ _)).
  destruct (attempt_ok (n i) pp); [reflexivity|]. simpl. apply IH.
Qed.

Lemma run_trace_writes (fuel i : nat) :
  (forall frame, pp = Ok frame ->
                 Forall (eq frame) (writes (run_trace fuel n i pp errfmt))) /\
  (forall e, pp = Err e -> writes (run_trace fuel n i pp errfmt) = []) /\
  (List.length (writes (run_trace fuel n i pp errfmt))
   <= run_failures fuel n i pp + last_dial (run_result fuel n i pp))%nat.
Proof.
  revert i. induction fuel as [|fuel IH]; intros i; simpl.
  - repeat split; auto.
  - destruct (attempt_trace_writes (n i) pp errfmt) as [A1 [A2 A3]].
    destruct (IH (S i)) as [B1 [B2 B3]].
    rewrite writes_app, length_app.
    destruct (attempt_ok (n i) pp); simpl.
    + rewrite app_nil_r. repeat split; auto. simpl. lia.
    + repeat split.
      * intros frame H. apply Forall_app. auto.
      * intros e H. rewrite (A2 e H), (B2 e H). reflexivity.
      * lia.
Qed.

End RunClosedForm.

Section AnyAttempt.

Variables (att : M bool) (pp : fallible (list byte)) (errfmt : string).
Hypothesis Hatt : is_attempt att pp errfmt.

(** The loop over [att] is its closed form. *)
Lemma retry_run (fuel : nat) :
  forall w, exists w',
    retry fuel att w = (run_result fuel (net w) (dialed w) pp, w') /\
    net w' = net w /\
    dialed w' = (dialed w + run_failures fuel (net w) (dialed w) pp
                 + last_dial (run_result fuel (net w) (dialed w) pp))%nat /\
    trace w' = trace w ++ run_trace fuel (net w) (dialed w) pp errfmt.
Proof.
  induction fuel as [|fuel IH]; intros w.
  - exists w. simpl. rewrite app_nil_r. repeat split. lia.
  - destruct (Hatt w) as [snt E]. simpl retry. unfold bind at 1. rewrite E.
    simpl run_result. simpl run_failures. simpl run_trace.
    destruct (attempt_ok (net w (dialed w)) pp) eqn:Hok; simpl negb; cbv iota.
    + eexists. split; [reflexivity|]. simpl. rewrite app_nil_r.
      repeat split. lia.
    + unfold bind, time_Sleep, emit. simpl.
      match goal with |- context [retry fuel att ?w1] =>
        destruct (IH w1) as [w' [H1 [H2 [H3 H4]]]] end.
      simpl in H1, H2, H3, H4. exists w'. rewrite H1.
      split; [reflexivity|]. split; [exact H2|]. split; [lia|].
      rewrite H4, <- !app_assoc. reflexivity.
Qed.

(** When the encoder rejects the request the loop never returns and never
    writes. *)
Lemma retry_rejected (e : error) :
  pp = Err e ->
  forall fuel w, keeps_retrying fuel w (retry fuel att w).
Proof.
  intros He fuel w. destruct (retry_run fuel w) as [w' [H1 [H2 [H3 H4]]]].
  assert (HL : run_result fuel (net w) (dialed w) pp = Looping).
  { destruct (run_result fuel (net w) (dialed w) pp) eqn:R; [|reflexivity].
    apply run_result_Returned_iff in R. destruct R as [k [_ R]].
    rewrite He, attempt_ok_Err in R. discriminate. }
  pose proof (run_Looping_failures _ _ _ _ HL) as HF.
  rewrite H1. unfold keeps_retrying. simpl.
  split; [exact HL|]. split; [rewrite H3, HL, HF; simpl; lia|].
  eexists. split; [exact H4|].
  rewrite run_trace_ticks, run_trace_reports, HL, HF. simpl.
  rewrite app_nil_r.
  destruct (run_trace_writes (net w) pp errfmt fuel (dialed w))
    as [_ [W _]].
  rewrite (W e He). repeat split.
Qed.

End AnyAttempt.

(** ** The encoder, further *)

Lemma app_same_length_inv {A} (l1 l2 r1 r2 : list A) :
  List.length l1 = List.length l2 ->
  l1 ++ r1 = l2 ++ r2 -> l1 = l2 /\ r1 = r2.
Proof.
  revert l2. induction l1 as [|x l1 IH]; intros [|y l2] Hl H;
    try discriminate.
  - split; [reflexivity | exact H].
  - simpl in Hl, H. injection Hl as Hl. injection H as -> H.
    destruct (IH l2 Hl H) as [-> ->]. split; reflexivity.
Qed.

Lemma source_field_inv (s s' : option gostring) :
  match s with Some x => byte_of_Z (len x) :: x | None => [x00] end
  = match s' with Some x => byte_of_Z (len x) :: x | None => [x00] end ->
  source_bytes s = source_bytes s'.
Proof.
  destruct s as [x|], s' as [y|]; simpl; intros H; try reflexivity;
    injection H as _ H; congruence.
Qed.

(** A frame determines the request it was built from: the action, the key
    when the action carries one, and the bytes of the source address when
    the action carries one. *)
Theorem preparePackage_injective (action action' : mutexAction)
    (key key' : gostring) (src src' : option gostring) (frame : list byte) :
  preparePackage action key src = Ok frame ->
  preparePackage action' key' src' = Ok frame ->
  action = action' /\
  (needs_key action = true -> key = key') /\
  (needs_source action = true -> source_bytes src = source_bytes src').
Proof.
  intros H H'.
  pose proof (preparePackage_ok_inv _ _ _ _ H) as Ka.
  pose proof (preparePackage_ok_inv _ _ _ _ H') as Ka'.
  rewrite (preparePackage_accepted _ _ _ Ka) in H.
  rewrite (preparePackage_accepted _ _ _ Ka') in H'.
  injection H as H. injection H' as H'. rewrite <- H in H'. clear H.
  destruct Ka as [_ Hle], Ka' as [_ Hle'].
  unfold header in H'. simpl in H'. injection H' as Ha H'. subst action'.
  split; [reflexivity|].
  destruct (needs_key action).
  - simpl in H'. injection H' as Hb H'.
    assert (Hlen : len key' = len key).
    { apply (f_equal byte_to_Z) in Hb. rewrite !byte_to_Z_of_Z in Hb.
      pose proof (len_nonneg key). pose proof (len_nonneg key').
      rewrite !Z.mod_small in Hb by lia. exact Hb. }
    assert (Hl : List.length key' = List.length key)
      by (unfold len in Hlen; lia).
    destruct (app_same_length_inv _ _ _ _ Hl H') as [-> Hs].
    split; [reflexivity|]. intros Hn. rewrite Hn in Hs.
    symmetry. apply source_field_inv. exact Hs.
  - simpl in H'. split; [discriminate|]. intros Hn. rewrite Hn in H'.
    symmetry. apply source_field_inv. exact H'.
Qed.

Lemma preparePackage_injective_witness :
  maLock = maLock /\
  (needs_key maLock = true -> key_of "job" = key_of "job") /\
  (needs_source maLock = true -> source_bytes None = source_bytes (Some [])).
Proof.
  apply (preparePackage_injective maLock maLock (key_of "job")
           (key_of "job") None (Some []) [x01; x03; "j"; "o"; "b"; x00]%byte);
    reflexivity.
Defined.

(** For an action byte outside the four codes the two switches write
    nothing: the frame of an accepted key is the action byte alone, and the
    key and the source address are left out. *)
Theorem preparePackage_unknown_action (action : mutexAction)
    (key : gostring) (src : option gostring) :
  ~ In action [maLock; maUnlock; maResetByKey; maResetBySource] ->
  1 <= len key <= 128 ->
  preparePackage action key src = Ok [action].
Proof.
  intros Hn Hk. simpl in Hn.
  assert (H1 : Byte.eqb action maLock = false)
    by (apply byte_eqb_neq; intros ->; tauto).
  assert (H2 : Byte.eqb action maUnlock = false)
    by (apply byte_eqb_neq; intros ->; tauto).
  assert (H3 : Byte.eqb action maResetByKey = false)
    by (apply byte_eqb_neq; intros ->; tauto).
  assert (H4 : Byte.eqb action maResetBySource = false)
    by (apply byte_eqb_neq; intros ->; tauto).
  rewrite preparePackage_accepted by (split; lia).
  unfold header, needs_key, needs_source. rewrite H1, H2, H3, H4.
  reflexivity.
Qed.

Lemma preparePackage_unknown_action_witness :
  preparePackage x09 (key_of "job") (Some (key_of "n1")) = Ok [x09].
Proof.
  apply (preparePackage_unknown_action x09 (key_of "job")
           (Some (key_of "n1"))).
  - simpl. intros [H | [H | [H | [H | []]]]]; discriminate H.
  - vm_compute. split; discriminate.
Defined.

(** ** The four operations, further *)

Lemma run_call_closed (c : call) (fuel : nat) (w : World) :
  exists w',
    run_call fuel c w
    = (run_result fuel (net w) (dialed w) (call_frame c), w') /\
    net w' = net w /\
    dialed w'
    = (dialed w + run_failures fuel (net w) (dialed w) (call_frame c)
       + last_dial (run_result fuel (net w) (dialed w) (call_frame c)))%nat /\
    trace w'
    = trace w ++
      run_trace fuel (net w) (dialed w) (call_frame c) (call_errfmt c).
Proof.
  destruct c; simpl run_call;
    rewrite ?Lock_attempt, ?Unlock_attempt, ?ResetByKey_attempt,
      ?ResetBySource_attempt;
    apply retry_run; intros w0; apply attempt_closed_form.
Qed.

(** An operation returns exactly when one of its attempts, within the fuel,
    sends its frame and reads the acknowledgment: it never returns on a
    failure, and never goes on after an acknowledgment. *)
Theorem call_returns_iff_acknowledged (c : call) (fuel : nat) (w : World) :
  fst (run_call fuel c w) = Returned <->
  exists k, (k < fuel)%nat /\
            attempt_acknowledged (net w (dialed w + k)%nat) (call_frame c).
Proof.
  destruct (run_call_closed c fuel w) as [w' [E _]]. rewrite E. simpl.
  rewrite run_result_Returned_iff. split; intros [k [Hk H]]; exists k;
    (split; [exact Hk|]); apply attempt_ok_iff_acknowledged; exact H.
Qed.

(** The course of every run of an operation: some number [k] of attempts
    without acknowledgment, each reported once and followed by one sleep of
    the retry interval, and then either the acknowledged attempt, after
    which the operation returns without a sleep, or the end of the fuel. An
    operation that has not returned has used all its attempts. *)
Theorem call_schedule (c : call) (fuel : nat) (w : World) :
  exists k t,
    (k <= fuel)%nat /\
    (forall j, (j < k)%nat ->
       ~ attempt_acknowledged (net w (dialed w + j)%nat) (call_frame c)) /\
    (fst (run_call fuel c w) = Returned ->
       attempt_acknowledged (net w (dialed w + k)%nat) (call_frame c)) /\
    (fst (run_call fuel c w) = Looping -> k = fuel) /\
    dialed (snd (run_call fuel c w))
    = (dialed w + k + last_dial (fst (run_call fuel c w)))%nat /\
    trace (snd (run_call fuel c w)) = trace w ++ t /\
    ticks t = retry_ticks k ++ last_tick (fst (run_call fuel c w)) /\
    reports t = k /\
    acks t = last_dial (fst (run_call fuel c w)).
Proof.
  destruct (run_call_closed c fuel w) as [w' [E [_ [Hd Ht]]]].
  rewrite E. simpl.
  exists (run_failures fuel (net w) (dialed w) (call_frame c)).
  eexists. split; [apply run_failures_le|].
  destruct (run_failures_first (net w) (call_frame c) fuel (dialed w))
    as [F1 F2].
  split.
  { intros j Hj Ha. apply attempt_ok_iff_acknowledged in Ha.
    rewrite F1 in Ha by exact Hj. discriminate. }
  split.
  { intros R. apply attempt_ok_iff_acknowledged. apply F2. exact R. }
  split; [apply run_Looping_failures|].
  split; [exact Hd|]. split; [exact Ht|].
  rewrite run_trace_ticks, run_trace_reports, run_trace_acks.
  repeat split.
Qed.

(** Every run of an operation, and every run of Wait across its Lock and
    its Unlock, keeps the discipline of the connections: it dials only when
    it holds no connection, writes at most once per connection, reads only
    after a write that went through, sleeps only when it holds no
    connection, and has closed every connection it opened when it returns
    or runs out of fuel. *)
Theorem operations_keep_protocol (fuel : nat) :
  (forall c w, exists t,
      trace (snd (run_call fuel c w)) = trace w ++ t /\
      protocol Idle t = Some Idle) /\
  (forall key w, exists t,
      trace (snd (Wait fuel key w)) = trace w ++ t /\
      protocol Idle t = Some Idle).
Proof.
  assert (H : forall c w, exists t,
             trace (snd (run_call fuel c w)) = trace w ++ t /\
             protocol Idle t = Some Idle).
  { intros c w. destruct (run_call_closed c fuel w) as [w' [E [_ [_ Ht]]]].
    rewrite E. simpl. eexists. split; [exact Ht|].
    apply run_trace_protocol. }
  split; [exact H|]. intros key w.
  destruct (H (CallLock key None) w) as [t1 [T1 P1]].
  simpl run_call in T1. unfold Wait, bind.
  destruct (Lock fuel key None w) as [[] w1]; simpl in T1.
  - destruct (H (CallUnlock key) w1) as [t2 [T2 P2]].
    simpl run_call in T2. exists (t1 ++ t2).
    split; [rewrite T2, T1, <- app_assoc; reflexivity|].
    rewrite (protocol_app _ _ _ _ P1). exact P2.
  - exists t1. split; [exact T1 | exact P1].
Qed.

(** The only bytes an operation hands to a connection are the frame of its
    request, at most once per dial; when the encoder rejects the request
    nothing is written at all. *)
Theorem call_writes_only_its_frame (c : call) (fuel : nat) (w : World) :
  exists t,
    trace (snd (run_call fuel c w)) = trace w ++ t /\
    (forall frame, call_frame c = Ok frame -> Forall (eq frame) (writes t)) /\
    (forall e, call_frame c = Err e -> writes t = []) /\
    (List.length (writes t) + dialed w
     <= dialed (snd (run_call fuel c w)))%nat.
Proof.
  destruct (run_call_closed c fuel w) as [w' [E [_ [Hd Ht]]]].
  rewrite E. simpl. eexists. split; [exact Ht|].
  destruct (run_trace_writes (net w) (call_frame c) (call_errfmt c) fuel
              (dialed w)) as [W1 [W2 W3]].
  split; [exact W1|]. split; [exact W2|]. lia.
Qed.

(** ResetBySource has no key to reject: for every source address, absent or
    present and of any length, its frame is the action byte 4, the length
    byte and the source bytes, and it returns after [N] transient failures
    and an acknowledgment, having dialed [N + 1] times. *)
Theorem ResetBySource_returns_after_N_failures (N fuel : nat)
    (src : option gostring) (w : World) :
  let frame := x04 :: byte_of_Z (len (source_bytes src)) :: source_bytes src in
  (forall i, (i < N)%nat -> transient_failure (net w (dialed w + i)) frame) ->
  acknowledged (net w (dialed w + N)) frame ->
  (N < fuel)%nat ->
  preparePackage maResetBySource [] src = Ok frame /\
  exists w',
    ResetBySource fuel src w = (Returned, w') /\
    dialed w' = (dialed w + N + 1)%nat /\
    exists t, trace w' = trace w ++ t /\
              ticks t = retry_ticks N ++ [TDial] /\
              acks t = 1%nat /\
              reports t = N.
Proof.
  intros frame Hfail Hack Hfuel.
  assert (Hp : preparePackage maResetBySource [] src = Ok frame).
  { rewrite preparePackage_accepted.
    - destruct src; reflexivity.
    - split; [intros H; exfalso; apply H; reflexivity
             | vm_compute; discriminate]. }
  split; [exact Hp|]. rewrite ResetBySource_attempt.
  apply (retry_until_acknowledged _ _ _ _ frame Hp N fuel w); auto.
  - intros i Hi. apply transient_failure_not_ok. auto.
  - apply acknowledged_ok. exact Hack.
Qed.

Lemma ResetBySource_returns_after_N_failures_witness :
  exists w',
    ResetBySource 4 (Some (key_of_length 300)) (world_of flaky_net)
    = (Returned, w') /\
    dialed w' = 3%nat.
Proof.
  destruct (ResetBySource_returns_after_N_failures 2 4
              (Some (key_of_length 300)) (world_of flaky_net))
    as [_ [w' [H1 [H2 _]]]].
  - intros i Hi. destruct i as [|[|i]]; simpl.
    + exact I.
    + right. left. split; reflexivity.
    + lia.
  - simpl. split; reflexivity.
  - lia.
  - exists w'. split; [exact H1 | exact H2].
Defined.

(** What holds of Lock holds of the four operations: after [N] transient
    failures and an acknowledgment of its frame, an operation has returned,
    having dialed [N + 1] times and slept the retry interval [N] times. *)
Theorem call_returns_after_N_failures (N fuel : nat) (c : call)
    (frame : list byte) (w : World) :
  call_frame c = Ok frame ->
  (forall i, (i < N)%nat -> transient_failure (net w (dialed w + i)) frame) ->
  acknowledged (net w (dialed w + N)) frame ->
  (N < fuel)%nat ->
  exists w',
    run_call fuel c w = (Returned, w') /\
    dialed w' = (dialed w + N + 1)%nat /\
    exists t, trace w' = trace w ++ t /\
              ticks t = retry_ticks N ++ [TDial] /\
              acks t = 1%nat /\
              reports t = N.
Proof.
  intros Hp Hfail Hack Hfuel.
  destruct c; simpl run_call; simpl call_frame in Hp;
    rewrite ?Lock_attempt, ?Unlock_attempt, ?ResetByKey_attempt,
      ?ResetBySource_attempt;
    apply (retry_until_acknowledged _ _ _ _ frame Hp N fuel w); auto;
    try (intros i Hi; apply transient_failure_not_ok; auto);
    apply acknowledged_ok; exact Hack.
Qed.

Lemma call_returns_after_N_failures_witness :
  exists w',
    Unlock 3 (key_of "job") (world_of flaky_net) = (Returned, w') /\
    dialed w' = 3%nat /\
    exists t, trace w' = [] ++ t /\
              ticks t = retry_ticks 2 ++ [TDial] /\
              acks t = 1%nat /\
              reports t = 2%nat.
Proof.
  apply (call_returns_after_N_failures 2 3 (CallUnlock (key_of "job"))
           [x02; x03; "j"; "o"; "b"]%byte (world_of flaky_net)).
  - reflexivity.
  - intros i Hi. destruct i as [|[|i]]; simpl.
    + exact I.
    + right. left. split; reflexivity.
    + lia.
  - simpl. split; reflexivity.
  - lia.
Defined.

(** ** Wait, further *)

Lemma retry_keeps_net (att : M bool) (pp : fallible (list byte))
    (errfmt : string) (fuel : nat) (w : World) :
  is_attempt att pp errfmt -> net (snd (retry fuel att w)) = net w.
Proof.
  intros H. destruct (retry_run att pp errfmt H fuel w) as [w' [E [Hn _]]].
  rewrite E. exact Hn.
Qed.

(** Wait with retries on both sides: after [N] transient failures of the
    Lock request and its acknowledgment, and then [M] transient failures of
    the Unlock request and its acknowledgment, Wait has returned after
    [N + M + 2] dials; the first Unlock attempt follows the acknowledged
    Lock attempt with no sleep in between. *)
Theorem Wait_returns_after_failures (N M fuel : nat) (key : gostring)
    (lockFrame unlockFrame : list byte) (w : World) :
  preparePackage maLock key None = Ok lockFrame ->
  preparePackage maUnlock key None = Ok unlockFrame ->
  (forall i, (i < N)%nat ->
     transient_failure (net w (dialed w + i)) lockFrame) ->
  acknowledged (net w (dialed w + N)) lockFrame ->
  (forall j, (j < M)%nat ->
     transient_failure (net w (dialed w + N + 1 + j)) unlockFrame) ->
  acknowledged (net w (dialed w + N + 1 + M)) unlockFrame ->
  (N < fuel)%nat -> (M < fuel)%nat ->
  exists w',
    Wait fuel key w = (Returned, w') /\
    dialed w' = (dialed w + N + M + 2)%nat /\
    exists t, trace w' = trace w ++ t /\
              ticks t = retry_ticks N ++ [TDial] ++ retry_ticks M ++ [TDial] /\
              acks t = 2%nat /\
              reports t = (N + M)%nat.
Proof.
  intros HpL HpU HfL HaL HfU HaU HN HM.
  destruct (retry_until_acknowledged maLock key None locking_error_fmt
              lockFrame HpL N fuel w)
    as [w1 [E1 [D1 [t1 [T1 [K1 [A1 R1]]]]]]]; auto.
  { intros i Hi. apply transient_failure_not_ok. auto. }
  { apply acknowledged_ok. exact HaL. }
  assert (Hn : net w1 = net w).
  { pose proof (retry_keeps_net _ _ _ fuel w
                  (attempt_closed_form maLock key None locking_error_fmt))
      as H. rewrite E1 in H. exact H. }
  destruct (retry_until_acknowledged maUnlock key None unlocking_error_fmt
              unlockFrame HpU M fuel w1)
    as [w2 [E2 [D2 [t2 [T2 [K2 [A2 R2]]]]]]]; auto.
  { intros j Hj. apply transient_failure_not_ok. rewrite Hn, D1. auto. }
  { apply acknowledged_ok. rewrite Hn, D1. exact HaU. }
  exists w2. split.
  - unfold Wait, bind. rewrite Lock_attempt, E1, Unlock_attempt. exact E2.
  - split; [lia|]. exists (t1 ++ t2).
    split; [rewrite T2, T1, <- app_assoc; reflexivity|].
    rewrite ticks_app, acks_app, reports_app, K1, K2, A1, A2, R1, R2.
    rewrite <- !app_assoc. repeat split.
Qed.

Lemma Wait_returns_after_failures_witness :
  exists w',
    Wait 3 (key_of "job") (world_of flaky_net) = (Returned, w') /\
    dialed w' = 4%nat /\
    exists t, trace w' = [] ++ t /\
              ticks t = retry_ticks 2 ++ [TDial] ++ retry_ticks 0 ++ [TDial] /\
              acks t = 2%nat /\
              reports t = 2%nat.
Proof.
  apply (Wait_returns_after_failures 2 0 3 (key_of "job")
           [x01; x03; "j"; "o"; "b"; x00]%byte [x02; x03; "j"; "o"; "b"]%byte
           (world_of flaky_net)).
  - reflexivity.
  - reflexivity.
  - intros i Hi. destruct i as [|[|i]]; simpl.
    + exact I.
    + right. left. split; reflexivity.
    + lia.
  - simpl. split; reflexivity.
  - intros j Hj. lia.
  - simpl. split; reflexivity.
  - lia.
  - lia.
Defined.

(** Wait with an empty key or a key of more than 128 bytes never gets past
    its Lock: it goes on retrying, writes nothing, and no Unlock is tried. *)
Theorem Wait_malformed_key (fuel : nat) (key : gostring) (w : World) :
  len key = 0 \/ 128 < len key ->
  keeps_retrying fuel w (Wait fuel key w) /\
  Wait fuel key w = Lock fuel key None w.
Proof.
  intros Hk.
  assert (Hrej : preparePackage maLock key None
                 = Err (Errorf invalid_key_msg)).
  { apply preparePackage_rejected. intros [H1 H2].
    assert (maLock <> maResetBySource) as Hn by discriminate.
    specialize (H1 Hn). lia. }
  pose proof (retry_encoding_error maLock key None locking_error_fmt _ Hrej
                fuel w) as HL.
  assert (E : Wait fuel key w = Lock fuel key None w).
  { unfold Wait, bind. rewrite Lock_attempt.
    destruct HL as [H _].
    destruct (retry fuel (attempt maLock key None locking_error_fmt) w)
      as [r w1]. simpl in H. subst r. reflexivity. }
  split; [|exact E]. rewrite E, Lock_attempt. exact HL.
Qed.

Lemma Wait_malformed_key_witness :
  keeps_retrying 2 ack_world (Wait 2 (key_of_length 129) ack_world).
Proof.
  apply (proj1 (Wait_malformed_key 2 (key_of_length 129) ack_world
                  (or_intror eq_refl))).
Defined.

(** ** The constructor *)


(** ** The earlier revisions *)

Lemma Part000_preparePackage_unfold (key : gostring) (emptyAllowed : bool)
    (action : mutexAction) :
  Part000.preparePackage key emptyAllowed action =
  if (negb emptyAllowed && (len key =? 0)) || (len key >? 128)
  then Err (Errorf invalid_key_msg)
  else Ok (byte_of_Z (len key) :: key ++ [action]).
Proof.
  unfold Part000.preparePackage. destruct (_ || _); [reflexivity|].
  simpl. rewrite byte_of_Z_int8. reflexivity.
Qed.

Lemma Part000_ResetBySource_run (src : gostring) :
  exists att,
    is_attempt att (Part000.preparePackage src true maResetBySource)
      reseting_error_fmt /\
    forall fuel, Part000.ResetBySource fuel src = retry fuel att.
Proof.
  eexists. split; [|intros fuel; reflexivity].
  intros w. unfold bind, net_DialTCP, Part000.query, attempt_trace, attempt_ok.
  destruct (net w (dialed w)) as [e|c].
  - eexists. cbn. rewrite <- app_assoc. reflexivity.
  - destruct (Part000.preparePackage src true maResetBySource)
      as [payload|e].
    + unfold bind, conn_Write, result, bind, io_ReadAtLeast1.
      destruct (on_write c payload) as [e|].
      * eexists. cbn. rewrite <- !app_assoc. reflexivity.
      * cbn. destruct (on_read c payload) as [b|].
        -- cbn. destruct (Byte.eqb b plus_sign); cbn;
             rewrite <- !app_assoc; eexists; reflexivity.
        -- cbn. rewrite <- !app_assoc. eexists. reflexivity.
    + eexists. cbn. rewrite <- !app_assoc. reflexivity.
Qed.

(** The second revision keeps the encoder of the first: with the flag off
    the two agree on every key and action, rejections included; with the
    flag on they differ on the empty key only, which the second frames as a
    zero length byte and the action byte. *)
Theorem Part000_keeps_Part001 (key : gostring) (action : mutexAction) :
  Part000.preparePackage key false action
  = Part001.preparePackage key action /\
  (key <> [] ->
   Part000.preparePackage key true action
   = Part001.preparePackage key action) /\
  Part000.preparePackage [] true action = Ok [x00; action] /\
  Part001.preparePackage [] action = Err (Errorf invalid_key_msg).
Proof.
  split; [reflexivity|]. split; [|split; reflexivity].
  intros Hk. unfold Part000.preparePackage, Part001.preparePackage.
  assert (H : (len key =? 0) = false).
  { apply Z.eqb_neq. intros H. apply len_nil_iff in H. contradiction. }
  rewrite H. reflexivity.
Qed.

(** From the second revision to the current one the check of the key is
    unchanged, and the action byte moves from the end of the frame to its
    front: for Lock, Unlock and ResetByKey and every source address, absent
    or present, the current frame is the action byte, then the old frame
    without its last byte, then for Lock the source field, which is the
    length byte and the bytes of the source address, or a zero byte when
    there is none. *)
Theorem action_byte_moved_to_front (action : mutexAction) (key : gostring)
    (src : option gostring) :
  In action [maLock; maUnlock; maResetByKey] ->
  match Part000.preparePackage key false action with
  | Ok old =>
      exists body,
        old = body ++ [action] /\
        preparePackage action key src
        = Ok (action :: body ++
              (if needs_source action then
                 match src with
                 | Some s => byte_of_Z (len s) :: s
                 | None => [x00]
                 end
               else []))
  | Err e => preparePackage action key src = Err e
  end.
Proof.
  intros Ha. destruct (key_action_cases _ Ha) as [Hk Hn].
  rewrite Part000_preparePackage_unfold. simpl negb.
  destruct (true && (len key =? 0) || (len key >? 128)) eqn:G.
  - rewrite preparePackage_unfold, (byte_eqb_neq _ _ Hn). simpl negb.
    rewrite G. reflexivity.
  - exists (byte_of_Z (len key) :: key). split; [reflexivity|].
    rewrite preparePackage_unfold, (byte_eqb_neq _ _ Hn). simpl negb.
    rewrite G. unfold header. rewrite Hk. reflexivity.
Qed.

Lemma action_byte_moved_to_front_witness :
  exists body,
    [x03; "j"; "o"; "b"; x01]%byte = body ++ [maLock] /\
    preparePackage maLock (key_of "job") (Some (key_of "n1"))
    = Ok (maLock :: body ++ [x02; "n"; "1"]%byte).
Proof.
  apply (action_byte_moved_to_front maLock (key_of "job")
           (Some (key_of "n1"))).
  simpl. auto.
Defined.

(** ResetBySource across the revisions. The second revision sends the
    source address in the place of the key, so a source address of more
    than 128 bytes is rejected by the check of the key and ResetBySource
    goes on retrying without writing a byte; the current revision checks no
    source address and frames it. Up to 128 bytes the current frame is the
    old one with the action byte moved to the front. *)
Theorem ResetBySource_source_limit_lifted (src : gostring) :
  (len src <= 128 ->
   exists body,
     Part000.preparePackage src true maResetBySource
     = Ok (body ++ [maResetBySource]) /\
     preparePackage maResetBySource [] (Some src)
     = Ok (maResetBySource :: body)) /\
  (128 < len src ->
   (forall fuel w,
       keeps_retrying fuel w (Part000.ResetBySource fuel src w)) /\
   exists frame, preparePackage maResetBySource [] (Some src) = Ok frame).
Proof.
  assert (Hnew : preparePackage maResetBySource [] (Some src)
                 = Ok (maResetBySource :: byte_of_Z (len src) :: src)).
  { apply preparePackage_accepted.
    split; [intros H; exfalso; apply H; reflexivity
           | vm_compute; discriminate]. }
  split.
  - intros Hle. exists (byte_of_Z (len src) :: src). split; [|exact Hnew].
    rewrite Part000_preparePackage_unfold. simpl negb. simpl andb.
    destruct (len src >? 128) eqn:G; [|reflexivity].
    rewrite Z.gtb_ltb in G. apply Z.ltb_lt in G. lia.
  - intros Hgt. split; [|eauto]. intros fuel w.
    destruct (Part000_ResetBySource_run src) as [att [Hatt Hrun]].
    rewrite Hrun.
    apply (retry_rejected att _ _ Hatt (Errorf invalid_key_msg)).
    rewrite Part000_preparePackage_unfold. simpl negb. simpl andb.
    destruct (len src >? 128) eqn:G; [reflexivity|].
    rewrite Z.gtb_ltb in G. apply Z.ltb_ge in G. lia.
Qed.

Lemma ResetBySource_source_limit_lifted_witness :
  keeps_retrying 2 ack_world
    (Part000.ResetBySource 2 (key_of_length 129) ack_world) /\
  exists frame,
    preparePackage maResetBySource [] (Some (key_of_length 129)) = Ok frame.
Proof.
  destruct (proj2 (ResetBySource_source_limit_lifted (key_of_length 129))
              eq_refl) as [H1 H2].
  split; [apply H1 | exact H2].
Defined.

(** ** Wait as one Lock and one Unlock *)

Lemma attempt_ok_Ok_iff o frame :
  attempt_ok o (Ok frame) = true <-> acknowledged o frame.
Proof.
  split; [|apply acknowledged_ok].
  intros H. destruct (attempt_ok_true _ _ H) as [f [E A]].
  injection E as ->. exact A.
Qed.

(** A loop that has returned has written its frame without error. *)
Lemma run_trace_requests_returned (n : nat -> dialOutcome)
    (frame : list byte) (errfmt : string) (fuel : nat) :
  forall i,
    run_result fuel n i (Ok frame) = Returned ->
    In frame (requests (run_trace fuel n i (Ok frame) errfmt)).
Proof.
  induction fuel as [|fuel IH]; intros i; simpl; [discriminate|].
  rewrite requests_app.
  destruct (attempt_ok (n i) (Ok frame)) eqn:Hok; intros H.
  - destruct (attempt_trace_acked _ _ errfmt Hok) as [-> _].
    simpl. auto.
  - apply in_or_app. right. simpl. apply IH. exact H.
Qed.

(** C8: Wait is exactly one Lock and then exactly one Unlock. Once the Lock
    has returned, having written nothing but the Lock frame of the key and
    read one acknowledgment, the Unlock is run from the state the Lock left:
    its first dial follows with no sleep and no caller work in between, it
    writes nothing but the Unlock frame of the key, and it goes through the
    retry loop like any Unlock. Wait returns exactly when an Unlock attempt
    within the fuel is acknowledged, having then written the Unlock frame
    and read exactly one acknowledgment for it; until then it has not
    returned and has used every attempt on the Unlock. *)
Theorem Wait_Lock_then_Unlock (fuel : nat) (key : gostring) (w w1 : World) :
  Lock fuel key None w = (Returned, w1) ->
  exists lockFrame unlockFrame tL tU k,
    preparePackage maLock key None = Ok lockFrame /\
    preparePackage maUnlock key None = Ok unlockFrame /\
    trace w1 = trace w ++ tL /\
    Forall (eq lockFrame) (writes tL) /\
    In lockFrame (requests tL) /\
    acks tL = 1%nat /\
    Wait fuel key w = Unlock fuel key w1 /\
    trace (snd (Wait fuel key w)) = trace w1 ++ tU /\
    Forall (eq unlockFrame) (writes tU) /\
    (exists rest, ticks tU = TDial :: rest) /\
    (0 < fuel)%nat /\ (k <= fuel)%nat /\
    (forall j, (j < k)%nat ->
       ~ acknowledged (net w (dialed w1 + j)) unlockFrame) /\
    (fst (Wait fuel key w) = Returned <->
     exists j, (j < fuel)%nat /\
               acknowledged (net w (dialed w1 + j)) unlockFrame) /\
    (fst (Wait fuel key w) = Returned ->
     acknowledged (net w (dialed w1 + k)) unlockFrame /\
     In unlockFrame (requests tU)) /\
    (fst (Wait fuel key w) = Looping -> k = fuel) /\
    dialed (snd (Wait fuel key w))
    = (dialed w1 + k + last_dial (fst (Wait fuel key w)))%nat /\
    ticks tU = retry_ticks k ++ last_tick (fst (Wait fuel key w)) /\
    acks tU = last_dial (fst (Wait fuel key w)).
Proof.
  intros HL.
  assert (HW : Wait fuel key w = Unlock fuel key w1)
    by (unfold Wait, bind; rewrite HL; reflexivity).
  destruct (run_call_closed (CallLock key None) fuel w)
    as [wL [EL [NL [_ TL]]]].
  simpl run_call in EL. simpl call_frame in EL, TL. simpl call_errfmt in TL.
  rewrite HL in EL. injection EL as RL <-.
  assert (Hfuel : (0 < fuel)%nat).
  { destruct fuel; [simpl in RL; discriminate | lia]. }
  destruct (run_failures_first (net w) (preparePackage maLock key None) fuel
              (dialed w)) as [_ FL].
  destruct (attempt_ok_true _ _ (FL (eq_sym RL))) as [lockFrame [HpL _]].
  assert (HpU : preparePackage maUnlock key None
                = Ok (header maUnlock key ++ [])).
  { pose proof (preparePackage_ok_inv _ _ _ _ HpL) as [K1 K2].
    rewrite preparePackage_accepted; [reflexivity|].
    split; [intros _; apply K1; discriminate | exact K2]. }
  destruct (run_call_closed (CallUnlock key) fuel w1)
    as [wU [EU [_ [DU TU]]]].
  simpl run_call in EU. simpl call_frame in EU, DU, TU.
  simpl call_errfmt in TU. rewrite HpU, NL in EU, DU, TU.
  rewrite HpL in RL, TL.
  exists lockFrame, (header maUnlock key ++ []).
  eexists. eexists.
  exists (run_failures fuel (net w) (dialed w1)
            (Ok (header maUnlock key ++ []))).
  rewrite HW, EU. cbn [fst snd].
  destruct (run_failures_first (net w) (Ok (header maUnlock key ++ [])) fuel
              (dialed w1)) as [FU1 FU2].
  split; [exact HpL|]. split; [exact HpU|]. split; [exact TL|].
  split; [apply (run_trace_writes (net w) (Ok lockFrame)); reflexivity|].
  split; [apply run_trace_requests_returned; symmetry; exact RL|].
  split; [rewrite run_trace_acks, <- RL; reflexivity|].
  split; [reflexivity|]. split; [exact TU|].
  split; [apply (run_trace_writes (net w) (Ok (header maUnlock key ++ [])));
          reflexivity|].
  split.
  { rewrite run_trace_ticks.
    destruct (run_result fuel (net w) (dialed w1) _) eqn:R.
    - destruct (run_failures fuel (net w) (dialed w1) _);
        simpl; eauto.
    - rewrite (run_Looping_failures _ _ _ _ R).
      destruct fuel; [lia|]. simpl. eauto. }
  split; [exact Hfuel|]. split; [apply run_failures_le|].
  split.
  { intros j Hj Ha. apply attempt_ok_Ok_iff in Ha.
    rewrite FU1 in Ha by exact Hj. discriminate. }
  split.
  { rewrite run_result_Returned_iff.
    split; intros [j [Hj H]]; exists j; (split; [exact Hj|]);
      apply attempt_ok_Ok_iff; exact H. }
  split.
  { intros R. split; [apply attempt_ok_Ok_iff, FU2; exact R|].
    apply run_trace_requests_returned. exact R. }
  split; [apply run_Looping_failures|].
  split; [exact DU|].
  rewrite run_trace_ticks, run_trace_acks. split; reflexivity.
Qed.

Lemma Wait_Lock_then_Unlock_witness :
  exists tU,
    trace (snd (Wait 3 (key_of "job") (world_of flaky_net)))
    = trace (snd (Lock 3 (key_of "job") None (world_of flaky_net))) ++ tU /\
    In [x02; x03; "j"; "o"; "b"]%byte (requests tU) /\
    acks tU = 1%nat.
Proof.
  destruct (Wait_Lock_then_Unlock 3 (key_of "job") (world_of flaky_net)
              (snd (Lock 3 (key_of "job") None (world_of flaky_net)))
              eq_refl)
    as (lockFrame & unlockFrame & tL & tU & k
        & _ & HpU & _ & _ & _ & _ & _ & HT & _ & _ & _ & _ & _ & _ & HR
        & _ & _ & _ & HA).
  exists tU. split; [exact HT|].
  assert (E : Ok [x02; x03; "j"; "o"; "b"]%byte = Ok unlockFrame)
    by (rewrite <- HpU; reflexivity).
  injection E as <-.
  split; [apply (proj2 (HR eq_refl)) | exact HA].
Defined.
